(** * OrderedSet: an insertion-ordered set with a position index

    A shallow embedding of [ordered_set/__init__.py].  An [OrderedSet] is a
    Python list [items] paired with a dict [map] from element to position.
    Methods that mutate [self] are state transformers that may raise; the
    state reached at the moment of a raise is kept, as it is in Python. *)

From stdpp Require Import gmap list strings.
From Stdlib Require Import ZArith Lia.

Set Warnings "-clear-no-such-hyp".
Open Scope Z_scope.

(** ** Exceptions and the method monad *)

Inductive exn := KeyError | IndexError | ValueError | TypeError.

Inductive result (A : Type) :=
  | Return (a : A)
  | Raise (e : exn).
Arguments Return {A} a.
Arguments Raise {A} e.

Definition raised {A} (r : result A) : bool :=
  match r with Raise _ => true | Return _ => false end.

Section ordered_set.
Context {T : Type} `{Countable T}.

(** [self.items] and [self.map] (the two [__slots__]). *)
Record OrderedSet := mkOrderedSet {
  items : list T;
  map : gmap T Z
}.

(** A method body: runs on [self], yields a value or an exception,
    together with [self] as the body left it. *)
Definition method (A : Type) : Type := OrderedSet → result A * OrderedSet.

Definition ret {A} (a : A) : method A := λ s, (Return a, s).
Definition raise {A} (e : exn) : method A := λ s, (Raise e, s).
Definition bind {A B} (m : method A) (k : A → method B) : method B :=
  λ s, match m s with
       | (Return a, s') => k a s'
       | (Raise e, s') => (Raise e, s')
       end.
Definition gets {A} (f : OrderedSet → A) : method A := λ s, (Return (f s), s).
Definition set_items (l : list T) : method unit :=
  λ s, (Return (), mkOrderedSet l (map s)).
Definition set_map (m : gmap T Z) : method unit :=
  λ s, (Return (), mkOrderedSet (items s) m).

(** [try: body except TypeError: handler] *)
Definition try_except_TypeError {A} (body handler : method A) : method A :=
  λ s, match body s with
       | (Raise TypeError, s') => handler s'
       | r => r
       end.

End ordered_set.

Declare Scope method_scope.
Delimit Scope method_scope with M.
Notation "x ← m ; k" := (bind m (λ x, k))
  (at level 20, m at level 100, k at level 200, only parsing) : method_scope.
Notation "m ;; k" := (bind m (λ _, k))
  (at level 100, k at level 200, only parsing, right associativity) : method_scope.
Open Scope method_scope.

Arguments OrderedSet T {_ _}.
Arguments method T {_ _} A.

(** ** Python list and dict statements *)

Section primitives.
Context {T : Type} `{Countable T}.

(** Position denoted by a Python index into a list of length [n]:
    negative indices count from the end, anything else is out of range. *)
Definition py_index (n : nat) (i : Z) : option nat :=
  if bool_decide (0 ≤ i < Z.of_nat n) then Some (Z.to_nat i)
  else if bool_decide (- Z.of_nat n ≤ i < 0) then Some (Z.to_nat (Z.of_nat n + i))
  else None.

(** [self.items[i]] *)
Definition items_get (i : Z) : method T T := λ s,
  match py_index (length (items s)) i ≫= (items s !!.) with
  | Some x => (Return x, s)
  | None => (Raise IndexError, s)
  end.

(** [del self.items[i]] *)
Definition items_del (i : Z) : method T unit := λ s,
  match py_index (length (items s)) i with
  | Some n => set_items (delete n (items s)) s
  | None => (Raise IndexError, s)
  end.

(** [self.items[i] = value] *)
Definition items_set (i : Z) (value : T) : method T unit := λ s,
  match py_index (length (items s)) i with
  | Some n => set_items (<[n := value]> (items s)) s
  | None => (Raise IndexError, s)
  end.

(** [self.map[key]] *)
Definition map_get (key : T) : method T Z := λ s,
  match map s !! key with
  | Some i => (Return i, s)
  | None => (Raise KeyError, s)
  end.

(** [del self.map[key]] *)
Definition map_del (key : T) : method T unit := λ s,
  match map s !! key with
  | Some _ => set_map (delete key (map s)) s
  | None => (Raise KeyError, s)
  end.

(** [enumerate(l)], counting from [i]. *)
Fixpoint enumerate_from (i : Z) (l : list T) : list (Z * T) :=
  match l with
  | [] => []
  | x :: l => (i, x) :: enumerate_from (i + 1) l
  end.

(** [{item: i for i, item in enumerate(l)}]: entries are stored in
    iteration order, so a later occurrence of a key overwrites an earlier
    one. *)
Definition enumerate_dict (l : list T) : gmap T Z :=
  foldl (λ m p, <[p.2 := p.1]> m) ∅ (enumerate_from 0 l).

(** [self.map = {item: i for i, item in enumerate(self.items)}] *)
Definition rebuild_map : method T unit :=
  l ← gets items; set_map (enumerate_dict l).

End primitives.

(** ** The methods of [OrderedSet] *)

Section methods.
Context {T : Type} `{Countable T}.

Definition __len__ (s : OrderedSet T) : Z := Z.of_nat (length (items s)).

Definition __contains__ (key : T) (s : OrderedSet T) : bool :=
  bool_decide (is_Some (map s !! key)).

Definition add (value : T) : method T Z :=
  present ← gets (__contains__ value);
  (if negb present then
     n ← gets __len__;
     m ← gets map;
     set_map (<[value := n]> m);;
     l ← gets items;
     set_items (l ++ [value])
   else ret ());;
  map_get value.

Definition append (key : T) : method T Z := add key.

(** What [update] may be handed: each argument either supports iteration
    or does not, and an iterable may yield objects that cannot be hashed
    (using one as a dict key raises [TypeError]). *)
Inductive item := Hashable (x : T) | Unhashable.
Inductive source := Iterable (l : list item) | NotIterable.

Definition add_item (it : item) : method T Z :=
  match it with
  | Hashable x => add x
  | Unhashable => raise TypeError
  end.

(** [for item in sequence: item_index = self.add(item)] *)
Fixpoint for_items (l : list item) (item_index : Z) : method T Z :=
  match l with
  | [] => ret item_index
  | it :: l => item_index ← add_item it; for_items l item_index
  end.

Definition iterate (sequence : source) : method T (list item) :=
  match sequence with
  | Iterable l => ret l
  | NotIterable => raise TypeError
  end.

Fixpoint for_sequences (sequences : list source) (item_index : Z) : method T Z :=
  match sequences with
  | [] => ret item_index
  | sequence :: sequences =>
      item_index ← try_except_TypeError
                     (l ← iterate sequence; for_items l item_index)
                     (raise ValueError);
      for_sequences sequences item_index
  end.

Definition update (sequences : list source) : method T Z :=
  for_sequences sequences 0.

Definition __init__ (initial : option source) : method T unit :=
  set_items [];;
  set_map ∅;;
  match initial with
  | Some sequence => update [sequence];; ret ()
  | None => ret ()
  end.

(** An object whose [__init__] has not run yet. *)
Definition blank : OrderedSet T := mkOrderedSet [] ∅.

(** [OrderedSet(initial)] as a caller sees it. *)
Definition new (initial : option source) : result (OrderedSet T) :=
  match __init__ initial blank with
  | (Return _, s) => Return s
  | (Raise e, _) => Raise e
  end.

(** [cls(l)] for a finite iterable of set elements; this construction
    cannot raise (lemma [cls_returns] below). *)
Definition cls (l : list T) : OrderedSet T :=
  (__init__ (Some (Iterable (Hashable <$> l))) blank).2.

Definition copy (s : OrderedSet T) : OrderedSet T := cls (items s).

(** The two shapes of pickled state: the tuple [(None,)] and a list. *)
Inductive pickle_state := NoneTuple | StateList (l : list T).

Definition truthy (state : pickle_state) : bool :=
  match state with
  | NoneTuple => true
  | StateList l => bool_decide (l ≠ [])
  end.

Definition __getstate__ (s : OrderedSet T) : pickle_state :=
  if bool_decide (__len__ s = 0) then NoneTuple else StateList (items s).

Definition __setstate__ (state : pickle_state) : method T unit :=
  match state with
  | NoneTuple => __init__ (Some (Iterable []))
  | StateList l => __init__ (Some (Iterable (Hashable <$> l)))
  end.

(** Unpickling as the comment in [__getstate__] describes it, which is
    what pickle protocols 0 and 1 do: a blank object is created and
    [__setstate__] runs on it only when the pickled state is truthy.  (The
    later protocols run [__setstate__] on every state but [None].) *)
Definition unpickle (state : pickle_state) : option (OrderedSet T) :=
  if truthy state then
    match __setstate__ state blank with
    | (Return _, s) => Some s
    | (Raise _, _) => None
    end
  else None.

Definition pop (index : Z) : method T T :=
  l ← gets items;
  if bool_decide (l = []) then raise KeyError else
  elem ← items_get index;
  items_del index;;
  rebuild_map;;
  ret elem.

Definition __setitem__ (index : Z) (value : T) : method T unit :=
  n ← gets __len__;
  if negb (bool_decide (- n ≤ index < n)) then raise IndexError else
  let index := if bool_decide (index < 0) then index + n else index in
  old_value ← items_get index;
  present ← gets (__contains__ value);
  if present then
    old_index ← map_get value;
    if bool_decide (old_index = index) then ret () else
    items_del old_index;;
    let index := if bool_decide (old_index < index) then index - 1 else index in
    items_set index value;;
    rebuild_map
  else
    items_set index value;;
    rebuild_map.

Definition __delitem__ (index : Z) : method T unit :=
  n ← gets __len__;
  if negb (bool_decide (- n ≤ index < n)) then raise IndexError else
  let index := if bool_decide (index < 0) then index + n else index in
  items_del index;;
  rebuild_map.

(** [for k, v in self.map.items(): if v >= i: self.map[k] = v - 1]:
    every entry is visited once and only its own value is overwritten. *)
Definition shift_down (i : Z) (m : gmap T Z) : gmap T Z :=
  map_fold (λ k v acc, if bool_decide (v >= i) then <[k := v - 1]> acc else acc) m m.

Definition discard (value : T) : method T unit :=
  present ← gets (__contains__ value);
  if present then
    i ← map_get value;
    items_del i;;
    map_del value;;
    m ← gets map;
    set_map (shift_down i m)
  else ret ().

(** Inherited from the [MutableSet] mixin, on top of [discard]. *)
Definition remove (value : T) : method T unit :=
  present ← gets (__contains__ value);
  if negb present then raise KeyError else discard value.

Definition clear : method T unit :=
  set_items [];;
  set_map ∅.

(** What [__eq__] may be compared with. *)
Inductive operand :=
  | Sequence (l : list T)
  | Collection (l : list T)
  | Opaque.

Definition __eq__ (s : OrderedSet T) (other : operand) : bool :=
  match other with
  | Sequence l => bool_decide (items s = l)
  | Collection l =>
      bool_decide (list_to_set (items s) =@{gset T} list_to_set l)
  | Opaque => false
  end.

(** An [OrderedSet] on the right of [==] is a [Sequence]. *)
Definition as_operand (s : OrderedSet T) : operand := Sequence (items s).

Definition union (s : OrderedSet T) (sets : list (list T)) : OrderedSet T :=
  cls (items s ++ concat sets).

Definition intersection (s : OrderedSet T) (sets : list (list T)) : OrderedSet T :=
  match list_to_set <$> sets with
  | [] => cls (items s)
  | X :: Xs =>
      let common : gset T := foldl (∩) X Xs in
      cls (filter (λ item, item ∈ common) (items s))
  end.

Definition __and__ (s : OrderedSet T) (other : list T) : OrderedSet T :=
  intersection s [other].

Definition difference (s : OrderedSet T) (sets : list (list T)) : OrderedSet T :=
  match list_to_set <$> sets with
  | [] => cls (items s)
  | X :: Xs =>
      let other : gset T := foldl (∪) X Xs in
      cls (filter (λ item, item ∉ other) (items s))
  end.

(** [other] is a list here, which both passes over it (in
    [difference(other)] and in [cls(other)]) read alike;
    [symmetric_difference_arg] below follows the same lines for an
    argument that one pass may use up. *)
Definition symmetric_difference (s : OrderedSet T) (other : list T) : OrderedSet T :=
  let diff1 := difference (cls (items s)) [other] in
  let diff2 := difference (cls other) [items s] in
  union diff1 [items diff2].

Definition _update_items (l : list T) : method T unit :=
  set_items l;;
  set_map (enumerate_dict l).

Definition difference_update (sets : list (list T)) : method T unit :=
  let items_to_remove : gset T :=
    foldl (λ acc other, acc ∪ list_to_set other) ∅ sets in
  l ← gets items;
  _update_items (filter (λ item, item ∉ items_to_remove) l).

Definition intersection_update (other : list T) : method T unit :=
  let other : gset T := list_to_set other in
  l ← gets items;
  _update_items (filter (λ item, item ∈ other) l).

(** [other] is a list here, read alike by the comprehension and by
    [set(other)]; [symmetric_difference_update_arg] below follows the same
    lines for an argument that one pass may use up. *)
Definition symmetric_difference_update (other : list T) : method T unit :=
  self ← gets id;
  let items_to_add := filter (λ item, __contains__ item self = false) other in
  let items_to_remove : gset T := list_to_set other in
  l ← gets items;
  _update_items (filter (λ item, item ∉ items_to_remove) l ++ items_to_add).

(** *** Reading: [__getitem__], [index], iteration *)

(** [l[start:stop:step]] on a Python list: the bounds are adjusted to the
    length as the interpreter does (a negative bound counts from the end
    and is then clamped; a missing bound is the far end in the direction
    of travel), and a zero step raises [ValueError]. *)
Definition adjust_bound (n step b : Z) : Z :=
  if bool_decide (b < 0) then
    if bool_decide (b + n < 0) then (if bool_decide (step < 0) then -1 else 0)
    else b + n
  else if bool_decide (b >= n) then (if bool_decide (step < 0) then n - 1 else n)
  else b.

Definition slice_start (n step : Z) (start : option Z) : Z :=
  match start with
  | Some b => adjust_bound n step b
  | None => if bool_decide (step < 0) then n - 1 else 0
  end.

Definition slice_stop (n step : Z) (stop : option Z) : Z :=
  match stop with
  | Some b => adjust_bound n step b
  | None => if bool_decide (step < 0) then -1 else n
  end.

Definition slice_length (start stop step : Z) : Z :=
  if bool_decide (step < 0) then
    if bool_decide (stop < start) then (start - stop - 1) `div` (- step) + 1 else 0
  else
    if bool_decide (start < stop) then (stop - start - 1) `div` step + 1 else 0.

Definition list_slice (l : list T) (start stop step : option Z) : result (list T) :=
  let n := Z.of_nat (length l) in
  let step := default 1 step in
  if bool_decide (step = 0) then Raise ValueError else
  let start := slice_start n step start in
  let stop := slice_stop n step stop in
  Return (omap (λ k : nat, l !! Z.to_nat (start + Z.of_nat k * step))
               (seq 0 (Z.to_nat (slice_length start stop step)))).

(** What an iterable used as an index yields: integers, or something a
    list cannot be indexed by. *)
Inductive subscript := IntSubscript (i : Z) | NonIntSubscript.

(** The kinds of index [__getitem__] tells apart, in the order it tests
    them: a slice, an iterable, an object with [__index__], anything
    else. *)
Inductive index_key :=
  | SliceKey (start stop step : option Z)
  | IterableKey (l : list subscript)
  | IntKey (i : Z)
  | OtherKey.

Definition SLICE_ALL : index_key := SliceKey None None None.

Inductive getitem_value :=
  | SetValue (s : OrderedSet T)
  | ListValue (l : list T)
  | ItemValue (x : T).

(** [[self.items[i] for i in index]] *)
Fixpoint getitems (index : list subscript) (s : OrderedSet T) : result (list T) :=
  match index with
  | [] => Return []
  | NonIntSubscript :: _ => Raise TypeError
  | IntSubscript i :: index =>
      match (items_get i s).1 with
      | Raise e => Raise e
      | Return x =>
          match getitems index s with
          | Raise e => Raise e
          | Return xs => Return (x :: xs)
          end
      end
  end.

Definition __getitem__ (index : index_key) (s : OrderedSet T) : result getitem_value :=
  match index with
  | SliceKey start stop step =>
      if bool_decide (start = None ∧ stop = None ∧ step = None) then
        Return (SetValue (copy s))
      else
        match list_slice (items s) start stop step with
        | Return l => Return (SetValue (cls l))
        | Raise e => Raise e
        end
  | IterableKey l =>
      match getitems l s with
      | Return xs => Return (ListValue xs)
      | Raise e => Raise e
      end
  | IntKey i =>
      match (items_get i s).1 with
      | Return x => Return (ItemValue x)
      | Raise e => Raise e
      end
  | OtherKey => Raise TypeError
  end.

(** The argument of [index]: one element, or an iterable that is not
    hashable (a list, say) of such arguments. *)
#[warning="-register-all"] Inductive lookup_key :=
  | SingleKey (x : T)
  | BatchKey (l : list lookup_key).

#[warning="-register-all"] Inductive lookup_value :=
  | Position (i : Z)
  | Positions (l : list lookup_value).

Fixpoint index (key : lookup_key) (s : OrderedSet T) : result lookup_value :=
  match key with
  | BatchKey l =>
      let comprehension :=
        fix comprehension (l : list lookup_key) : result (list lookup_value) :=
          match l with
          | [] => Return []
          | subkey :: l =>
              match index subkey s with
              | Return v =>
                  match comprehension l with
                  | Return vs => Return (v :: vs)
                  | Raise e => Raise e
                  end
              | Raise e => Raise e
              end
          end in
      match comprehension l with
      | Return vs => Return (Positions vs)
      | Raise e => Raise e
      end
  | SingleKey x =>
      match (map_get x s).1 with
      | Return i => Return (Position i)
      | Raise e => Raise e
      end
  end.

Definition get_loc := index.
Definition get_indexer := index.

Definition __iter__ (s : OrderedSet T) : list T := items s.

Definition __reversed__ (s : OrderedSet T) : list T := reverse (items s).

(** *** Containment tests *)

(** The argument of [issubset] and [issuperset]: what iterating it
    yields, whether it has [__len__] ([Sized]) and whether it has
    [__contains__] ([Container]).  When it is sized, [len] is the number
    of objects it yields, as for lists, tuples, sets, ordered sets and
    strings. *)
Record iterable := mkIterable {
  yields : list T;
  is_sized : bool;
  is_container : bool
}.

(** [all(test(item) for item in l)]: stops at the first [False], and a
    test that raises ends it with that exception. *)
Fixpoint all_items (test : T → result bool) (l : list T) : result bool :=
  match l with
  | [] => Return true
  | item :: l =>
      match test item with
      | Return true => all_items test l
      | Return false => Return false
      | Raise e => Raise e
      end
  end.

(** [other_in item] is what [item in other] gives when [other] is a
    [Container]: the container's own answer, which is membership among
    what it yields for a list, tuple or set, but a substring test for a
    string, and which may raise. *)
Definition issubset (other : iterable) (other_in : T → result bool)
    (s : OrderedSet T) : result bool :=
  if is_sized other && bool_decide (__len__ s > Z.of_nat (length (yields other)))
  then Return false
  else if negb (is_container other) then
    let other_container : gset T := list_to_set (yields other) in
    all_items (λ item, Return (bool_decide (item ∈ other_container))) (items s)
  else
    all_items other_in (items s).

Definition issuperset (other : iterable) (s : OrderedSet T) : bool :=
  if is_sized other && bool_decide (__len__ s < Z.of_nat (length (yields other)))
  then false
  else forallb (λ item, __contains__ item s) (yields other).

End methods.

(** ** The core invariant *)

Section invariant.
Context {T : Type} `{Countable T}.

#[global] Instance exn_eq_dec : EqDecision exn.
Proof. solve_decision. Defined.

#[global] Instance result_eq_dec `{EqDecision A} : EqDecision (result A).
Proof. solve_decision. Defined.

#[global] Instance OrderedSet_eq_dec : EqDecision (OrderedSet T).
Proof. solve_decision. Defined.

(** Every element sits at the position the index records for it, the
    sequence has no duplicates, and the index has no other keys. *)
Record wf (s : OrderedSet T) : Prop := mk_wf {
  wf_position : ∀ (i : nat) (e : T),
      items s !! i = Some e → map s !! e = Some (Z.of_nat i);
  wf_nodup : NoDup (items s);
  wf_size : length (items s) = size (map s)
}.

(** *** Vocabulary of the statements *)

Implicit Types (l acc : list T).

(** [adds l (i, s) (i', s')]: calling [add] on the elements of [l], left
    to right from state [s], ends in [s']; [i'] is what the last call
    returned ([i] when there was no call). *)
Inductive adds : list T → Z * OrderedSet T → Z * OrderedSet T → Prop :=
  | adds_nil p : adds [] p p
  | adds_cons x l i0 s0 i1 s1 p :
      add x s0 = (Return i1, s1) → adds l (i1, s1) p → adds (x :: l) (i0, s0) p.

#[global] Instance item_eq_dec : EqDecision (@item T).
Proof. solve_decision. Defined.

(** The elements an iteration hands to [add] before it meets an object
    that cannot be hashed. *)
Fixpoint items_before_failure (l : list (@item T)) : list T :=
  match l with
  | Hashable x :: l => x :: items_before_failure l
  | _ => []
  end.

(** A source on which the [try] block of [update] raises [TypeError]. *)
Definition fails (sequence : @source T) : bool :=
  match sequence with
  | NotIterable => true
  | Iterable l => bool_decide (Unhashable ∈ l)
  end.

(** The elements [update] hands to [add] before it stops. *)
Fixpoint consumed (sequences : list (@source T)) : list T :=
  match sequences with
  | [] => []
  | NotIterable :: _ => []
  | Iterable l :: sequences =>
      items_before_failure l
      ++ (if fails (Iterable l) then [] else consumed sequences)
  end.

Definition hashables l : @source T := Iterable (Hashable <$> l).

(** The state a rebuild produces from a sequence. *)
Definition rebuilt l : OrderedSet T := mkOrderedSet l (enumerate_dict l).

(** [acc] followed by the elements of [l] not seen before, each at its
    first occurrence. *)
Definition extend acc l : list T :=
  foldl (λ acc x, if decide (x ∈ acc) then acc else acc ++ [x]) acc l.

(** The distinct elements of [l], each where it first occurs. *)
Fixpoint first_occurrences l : list T :=
  match l with
  | [] => []
  | x :: l => x :: filter (λ y, y ≠ x) (first_occurrences l)
  end.

(** *** Calls with arguments of any kind

    The methods above take elements of [T] and lists of them.  A caller
    can also hand over an object that cannot be hashed, an object that is
    not iterable, or an iterator that is used up by one pass.  The
    definitions below follow the same source lines for such arguments. *)

(** An argument passed as an iterable: what one pass over it meets, and
    whether that pass uses it up (an iterator, a generator) or it can be
    iterated again (a list, tuple, set, ordered set). *)
Record argument := mkArgument {
  supplies : @source T;
  one_shot : bool
}.

(** What a pass over the argument meets after an earlier complete pass. *)
Definition later_pass (other : argument) : @source T :=
  match supplies other with
  | NotIterable => NotIterable
  | Iterable l => if one_shot other then Iterable [] else Iterable l
  end.

(** An argument that is a list of elements. *)
Definition list_argument l : argument := mkArgument (hashables l) false.

(** An iterator over a list of elements. *)
Definition iter l : argument := mkArgument (hashables l) true.

(** [set(sequence)]: [TypeError] when the object is not iterable or
    yields an object that cannot be hashed. *)
Definition set_of (sequence : @source T) : result (gset T) :=
  match sequence with
  | NotIterable => Raise TypeError
  | Iterable l =>
      if bool_decide (Unhashable ∈ l) then Raise TypeError
      else Return (list_to_set (items_before_failure l))
  end.

(** [append(key)] is [add(key)]; [add] with any object is [add_item]. *)
Definition append_item (key : @item T) : method T Z := add_item key.

(** [discard(value)]: [value in self] hashes the value first. *)
Definition discard_item (value : @item T) : method T unit :=
  match value with
  | Hashable value => discard value
  | Unhashable => raise TypeError
  end.

(** [remove(value)] of the mixin: [value not in self] hashes the value
    first. *)
Definition remove_item (value : @item T) : method T unit :=
  match value with
  | Hashable value => remove value
  | Unhashable => raise TypeError
  end.

(** [__setitem__(index, value)]: the bounds check and the read of
    [old_value] come before [value in self.map], which hashes the
    value. *)
Definition setitem_item (index : Z) (value : @item T) : method T unit :=
  match value with
  | Hashable value => __setitem__ index value
  | Unhashable =>
      n ← gets __len__;
      if negb (bool_decide (- n ≤ index < n)) then raise IndexError else
      let index := if bool_decide (index < 0) then index + n else index in
      old_value ← items_get index;
      raise TypeError
  end.

Definition intersection_update_arg (other : argument) : method T unit :=
  match set_of (supplies other) with
  | Raise e => raise e
  | Return other =>
      l ← gets items;
      _update_items (filter (λ item, item ∈ other) l)
  end.

(** [for other in sets: items_to_remove |= set(other)] *)
Fixpoint items_to_remove_of (sets : list argument) (items_to_remove : gset T)
    : result (gset T) :=
  match sets with
  | [] => Return items_to_remove
  | other :: sets =>
      match set_of (supplies other) with
      | Raise e => Raise e
      | Return items_as_set => items_to_remove_of sets (items_to_remove ∪ items_as_set)
      end
  end.

Definition difference_update_args (sets : list argument) : method T unit :=
  match items_to_remove_of sets ∅ with
  | Raise e => raise e
  | Return items_to_remove =>
      l ← gets items;
      _update_items (filter (λ item, item ∉ items_to_remove) l)
  end.

(** [[item for item in other if item not in self]]: one pass over
    [other], each item hashed by the membership test. *)
Definition items_not_in (sequence : @source T) (self : OrderedSet T)
    : result (list T) :=
  match sequence with
  | NotIterable => Raise TypeError
  | Iterable l =>
      if bool_decide (Unhashable ∈ l) then Raise TypeError
      else Return (filter (λ item, __contains__ item self = false)
                          (items_before_failure l))
  end.

(** [symmetric_difference_update(other)]: the list comprehension is the
    first pass over [other], [set(other)] a second one. *)
Definition symmetric_difference_update_arg (other : argument) : method T unit :=
  self ← gets id;
  match items_not_in (supplies other) self with
  | Raise e => raise e
  | Return items_to_add =>
      match set_of (later_pass other) with
      | Raise e => raise e
      | Return items_to_remove =>
          l ← gets items;
          _update_items (filter (λ item, item ∉ items_to_remove) l ++ items_to_add)
      end
  end.

(** [symmetric_difference(other)]: [difference(other)] makes the first
    pass over [other] with [set(other)], [cls(other)] a second one. *)
Definition symmetric_difference_arg (s : OrderedSet T) (other : argument)
    : result (OrderedSet T) :=
  match set_of (supplies other) with
  | Raise e => Raise e
  | Return other_set =>
      let diff1 :=
        cls (filter (λ item, item ∉ other_set) (items (cls (items s)))) in
      match new (Some (later_pass other)) with
      | Raise e => Raise e
      | Return other_again =>
          let diff2 := difference other_again [items s] in
          Return (union diff1 [items diff2])
      end
  end.

(** *** The dict built from [enumerate] *)

Lemma enumerate_fold_notin (l : list T) i (m : gmap T Z) x :
  x ∉ l →
  foldl (λ m p, <[p.2 := p.1]> m) m (enumerate_from i l) !! x = m !! x.
Proof.
  revert i m. induction l as [|y l IH]; intros i m Hx; [done|].
  apply not_elem_of_cons in Hx as [Hxy Hx]. cbn.
  rewrite IH by done. by rewrite lookup_insert_ne.
Qed.

Lemma enumerate_fold_lookup (l : list T) i (m : gmap T Z) (n : nat) x :
  NoDup l → l !! n = Some x →
  foldl (λ m p, <[p.2 := p.1]> m) m (enumerate_from i l) !! x
  = Some (i + Z.of_nat n).
Proof.
  revert i m n. induction l as [|y l IH]; intros i m n Hnd Hn; [done|].
  apply NoDup_cons in Hnd as [Hy Hnd]. destruct n as [|n]; cbn in *.
  - injection Hn as ->. rewrite enumerate_fold_notin by done.
    rewrite lookup_insert_eq. f_equal. lia.
  - rewrite (IH _ _ n) by done. f_equal. lia.
Qed.

Lemma enumerate_fold_dom (l : list T) i (m : gmap T Z) :
  dom (foldl (λ m p, <[p.2 := p.1]> m) m (enumerate_from i l))
  = dom m ∪ list_to_set l.
Proof.
  revert i m. induction l as [|y l IH]; intros i m; cbn.
  - set_solver.
  - rewrite IH, dom_insert_L. set_solver.
Qed.

Lemma enumerate_dict_dom (l : list T) :
  dom (enumerate_dict l) = list_to_set l.
Proof. unfold enumerate_dict. rewrite enumerate_fold_dom. set_solver. Qed.

Lemma enumerate_dict_lookup (l : list T) (n : nat) x :
  NoDup l → l !! n = Some x → enumerate_dict l !! x = Some (Z.of_nat n).
Proof. intros. unfold enumerate_dict. by rewrite (enumerate_fold_lookup _ _ _ n). Qed.

Lemma enumerate_dict_notin (l : list T) x :
  x ∉ l → enumerate_dict l !! x = None.
Proof. intros. unfold enumerate_dict. by rewrite enumerate_fold_notin. Qed.

Lemma enumerate_dict_Some (l : list T) x i :
  NoDup l → enumerate_dict l !! x = Some i →
  0 ≤ i ∧ l !! Z.to_nat i = Some x.
Proof.
  intros Hnd Hi. destruct (decide (x ∈ l)) as [Hx|Hx].
  - apply list_elem_of_lookup in Hx as [n Hn].
    rewrite (enumerate_dict_lookup _ n) in Hi by done.
    injection Hi as <-. rewrite Nat2Z.id. split; [lia | done].
  - by rewrite enumerate_dict_notin in Hi.
Qed.

Lemma enumerate_dict_size (l : list T) :
  NoDup l → size (enumerate_dict l) = length l.
Proof.
  intros Hnd. rewrite <- size_dom, enumerate_dict_dom.
  by apply size_list_to_set.
Qed.

(** A state is well formed exactly when its sequence has no duplicates
    and its index is the one a rebuild would produce. *)
Lemma wf_rebuilt (s : OrderedSet T) :
  wf s ↔ NoDup (items s) ∧ map s = enumerate_dict (items s).
Proof.
  split.
  - intros [Hpos Hnd Hsz]. split; [done|].
    assert (Hdom : dom (map s) = list_to_set (items s)).
    { symmetry. apply set_subseteq_size_eq.
      - intros x Hx. apply elem_of_list_to_set, list_elem_of_lookup in Hx as [i Hi].
        apply elem_of_dom. rewrite (Hpos _ _ Hi). eauto.
      - rewrite size_dom, <- Hsz, size_list_to_set by done. lia. }
    apply map_eq. intros x. destruct (decide (x ∈ items s)) as [Hx|Hx].
    + apply list_elem_of_lookup in Hx as [i Hi].
      by rewrite (Hpos _ _ Hi), (enumerate_dict_lookup _ i).
    + rewrite enumerate_dict_notin by done.
      apply not_elem_of_dom. rewrite Hdom. by rewrite elem_of_list_to_set.
  - intros [Hnd Hm]. split; [|done|].
    + intros i e Hi. rewrite Hm. by apply enumerate_dict_lookup.
    + by rewrite Hm, enumerate_dict_size.
Qed.

Lemma wf_of_list (l : list T) :
  NoDup l → wf (mkOrderedSet l (enumerate_dict l)).
Proof. intros. by apply wf_rebuilt. Qed.

Lemma wf_eq (s : OrderedSet T) :
  wf s → s = mkOrderedSet (items s) (enumerate_dict (items s)).
Proof. intros [_ Hm]%wf_rebuilt. destruct s; cbn in *. by rewrite Hm. Qed.

Lemma wf_lookup_Some (s : OrderedSet T) x i :
  wf s → map s !! x = Some i → 0 ≤ i ∧ items s !! Z.to_nat i = Some x.
Proof. intros [Hnd Hm]%wf_rebuilt. rewrite Hm. by apply enumerate_dict_Some. Qed.

Lemma wf_lookup_None (s : OrderedSet T) x :
  wf s → map s !! x = None ↔ x ∉ items s.
Proof.
  intros Hwf. destruct (wf_rebuilt s) as [Hr _]. destruct (Hr Hwf) as [Hnd Hm].
  rewrite <- not_elem_of_dom, Hm, enumerate_dict_dom. by rewrite elem_of_list_to_set.
Qed.

Lemma wf_contains (s : OrderedSet T) x :
  wf s → __contains__ x s = true ↔ x ∈ items s.
Proof.
  intros Hwf. unfold __contains__. rewrite bool_decide_eq_true.
  destruct (decide (x ∈ items s)) as [Hx|Hx].
  - split; [done|]. intros _. apply list_elem_of_lookup in Hx as [i Hi].
    rewrite (wf_position _ Hwf _ _ Hi). eauto.
  - apply (wf_lookup_None _ _ Hwf) in Hx as Hn. rewrite Hn.
    split; [by intros [? ?] | done].
Qed.

End invariant.

(** ** Insertion: [add] and [update] *)

Section insertion.
Context {T : Type} `{Countable T}.
Implicit Types (s : OrderedSet T) (l : list T) (value x : T).

Lemma add_unfold value s :
  add value s =
  match map s !! value with
  | Some i => (Return i, s)
  | None => (Return (__len__ s),
             mkOrderedSet (items s ++ [value]) (<[value := __len__ s]> (map s)))
  end.
Proof.
  unfold add, bind, gets, __contains__, map_get, set_map, set_items, ret.
  destruct (map s !! value) as [i|] eqn:Hv; cbn.
  - rewrite Hv. by destruct s.
  - by rewrite lookup_insert_eq.
Qed.

Lemma add_returns value s : ∃ i, (add value s).1 = Return i.
Proof. rewrite add_unfold. destruct (map s !! value); eauto. Qed.

Lemma add_wf value s : wf s → wf (add value s).2.
Proof.
  intros Hwf. rewrite add_unfold.
  destruct (map s !! value) as [i|] eqn:Hv; [done|].
  apply (wf_lookup_None _ _ Hwf) in Hv as Hnotin.
  destruct Hwf as [Hpos Hnd Hsz]. split; cbn.
  - intros i e Hi. destruct (decide (i < length (items s))%nat) as [Hlt|Hge].
    + rewrite lookup_app_l in Hi by done.
      rewrite lookup_insert_ne; [by apply Hpos|].
      intros ->. apply Hnotin. by eapply list_elem_of_lookup_2.
    + rewrite lookup_app_r in Hi by lia.
      apply list_lookup_singleton_Some in Hi as [Hi ->].
      rewrite lookup_insert_eq. unfold __len__. f_equal. lia.
  - apply NoDup_app. split_and!; [done| |apply NoDup_singleton].
    intros e He ->%list_elem_of_singleton. done.
  - rewrite length_app, map_size_insert_None by done. cbn. lia.
Qed.

Lemma adds_app l1 l2 p q r : adds l1 p q → adds l2 q r → adds (l1 ++ l2) p r.
Proof.
  induction 1 as [|x l i0 s0 i1 s1 p Hadd _ IH]; intros Hr; [done|].
  cbn. econstructor; eauto.
Qed.

Lemma adds_wf l i s i' s' : adds l (i, s) (i', s') → wf s → wf s'.
Proof.
  intros Hadds. remember (i, s) as p eqn:Hp. remember (i', s') as q eqn:Hq.
  revert i s Hp. induction Hadds as [|x l i0 s0 i1 s1 p Hadd _ IH]; intros i s Hp Hwf.
  - congruence.
  - injection Hp as -> ->. apply (IH Hq i1 s1 eq_refl).
    replace s1 with (add x s).2 by (by rewrite Hadd). by apply add_wf.
Qed.

Lemma adds_total l i s : ∃ i' s', adds l (i, s) (i', s').
Proof.
  revert i s. induction l as [|x l IH]; intros i s.
  - eexists _, _. constructor.
  - destruct (add x s) as [r s1] eqn:Hadd.
    destruct (add_returns x s) as [i1 Hi1]. rewrite Hadd in Hi1. cbn in Hi1. subst r.
    destruct (IH i1 s1) as (i' & s' & Hl). eexists _, _. econstructor; eauto.
Qed.

Lemma adds_functional l p q q' : adds l p q → adds l p q' → q = q'.
Proof.
  induction 1 as [|x l i0 s0 i1 s1 p Hadd _ IH]; inversion 1; subst; [done|].
  apply IH. congruence.
Qed.

Lemma for_items_run (l : list (@item T)) i s :
  ∃ i' s', adds (items_before_failure l) (i, s) (i', s') ∧
    for_items l i s =
      (if bool_decide (Unhashable ∈ l) then Raise TypeError else Return i', s').
Proof.
  revert i s. induction l as [|[x|] l IH]; intros i s; cbn.
  - eexists _, _. split; [constructor | done].
  - unfold bind. destruct (add x s) as [r s1] eqn:Hadd.
    destruct (add_returns x s) as [i1 Hi1]. rewrite Hadd in Hi1. cbn in Hi1. subst r.
    destruct (IH i1 s1) as (i' & s' & Hadds & Hrun).
    exists i', s'. split; [econstructor; eauto|].
    rewrite Hrun. destruct (decide (Unhashable ∈ l)) as [Hin|Hin].
    + rewrite !bool_decide_eq_true_2; [done| |done]. by right.
    + rewrite !bool_decide_eq_false_2; [done| |done].
      by intros [?|?]%elem_of_cons.
  - eexists _, _. split; [constructor|].
    rewrite bool_decide_eq_true_2 by left. done.
Qed.

Lemma for_sequences_run (sequences : list (@source T)) i s :
  ∃ i' s', adds (consumed sequences) (i, s) (i', s') ∧
    for_sequences sequences i s =
      (if existsb fails sequences then Raise ValueError else Return i', s').
Proof.
  revert i s. induction sequences as [|[l|] sequences IH]; intros i s.
  - eexists _, _. split; [constructor | done].
  - destruct (for_items_run l i s) as (i1 & s1 & Hadds1 & Hrun1).
    cbn [for_sequences consumed existsb fails].
    unfold bind at 1, try_except_TypeError, iterate. unfold bind at 1, ret.
    rewrite Hrun1. destruct (bool_decide (Unhashable ∈ l)); cbn.
    + exists i1, s1. split; [|done]. by rewrite app_nil_r.
    + destruct (IH i1 s1) as (i' & s' & Hadds & Hrun).
      exists i', s'. split; [by eapply adds_app|done].
  - exists i, s. split; [constructor | done].
Qed.

Lemma items_before_failure_hashable l : items_before_failure (Hashable <$> l) = l.
Proof. induction l; cbn; congruence. Qed.

Lemma hashables_succeed l : fails (hashables l) = false.
Proof.
  apply bool_decide_eq_false_2.
  intros (x & Hx & _)%list_elem_of_fmap. discriminate.
Qed.

Lemma consumed_hashables (ls : list (list T)) :
  consumed (hashables <$> ls) = concat ls ∧ existsb fails (hashables <$> ls) = false.
Proof.
  induction ls as [|l ls [IH1 IH2]]; [done|].
  change (hashables <$> l :: ls) with (hashables l :: (hashables <$> ls)).
  unfold hashables at 1 3. cbn [consumed existsb].
  change (Iterable (Hashable <$> l)) with (hashables l).
  rewrite hashables_succeed, items_before_failure_hashable, IH1, IH2. done.
Qed.

End insertion.

(** ** Construction from an iterable *)

Section construction.
Context {T : Type} `{Countable T}.
Implicit Types (s : OrderedSet T) (l acc : list T) (x : T).

Lemma extend_cons acc x l :
  extend acc (x :: l) = extend (if decide (x ∈ acc) then acc else acc ++ [x]) l.
Proof. done. Qed.

Lemma elem_of_extend acc l x : x ∈ extend acc l ↔ x ∈ acc ∨ x ∈ l.
Proof.
  revert acc. induction l as [|y l IH]; intros acc.
  - cbn. rewrite elem_of_nil. tauto.
  - rewrite extend_cons, IH, elem_of_cons. case_decide.
    + split; [tauto|]. intros [?|[->|?]]; auto.
    + rewrite elem_of_app, list_elem_of_singleton. tauto.
Qed.

Lemma extend_NoDup acc l : NoDup acc → NoDup (extend acc l).
Proof.
  revert acc. induction l as [|y l IH]; intros acc Hnd; [done|].
  rewrite extend_cons. apply IH. case_decide; [done|].
  apply NoDup_app. split_and!; [done| |apply NoDup_singleton].
  by intros e He ->%list_elem_of_singleton.
Qed.

Lemma extend_fresh acc l : NoDup (acc ++ l) → extend acc l = acc ++ l.
Proof.
  revert acc. induction l as [|y l IH]; intros acc Hnd.
  - by rewrite app_nil_r.
  - rewrite extend_cons. rewrite cons_middle, app_assoc in Hnd.
    rewrite decide_False.
    + rewrite IH by done. by rewrite <- app_assoc.
    + apply NoDup_app in Hnd as [Hnd _]. apply NoDup_app in Hnd as (_ & Hd & _).
      intros Hy. apply (Hd _ Hy). by left.
Qed.

Lemma extend_prefix acc l : ∃ k, extend acc l = acc ++ k.
Proof.
  revert acc. induction l as [|y l IH]; intros acc.
  - exists []. by rewrite app_nil_r.
  - rewrite extend_cons. case_decide; [done|].
    destruct (IH (acc ++ [y])) as [k ->]. exists (y :: k). by rewrite <- app_assoc.
Qed.

Lemma rebuilt_wf l : NoDup l → wf (rebuilt l).
Proof. apply wf_of_list. Qed.

Lemma add_extend x s :
  wf s → (add x s).2 = rebuilt (extend (items s) [x]).
Proof.
  intros Hwf. pose proof (add_wf x s Hwf) as Hwf'.
  assert (items (add x s).2 = extend (items s) [x]) as Hitems; last first.
  { rewrite (wf_eq _ Hwf'), Hitems. done. }
  unfold extend. cbn [foldl]. rewrite add_unfold. destruct (map s !! x) as [i|] eqn:Hx.
  - apply (wf_lookup_Some _ _ _ Hwf) in Hx as [_ Hx].
    apply list_elem_of_lookup_2 in Hx. by rewrite decide_True.
  - apply (wf_lookup_None _ _ Hwf) in Hx. by rewrite decide_False.
Qed.

Lemma adds_extend l i s i' s' :
  wf s → adds l (i, s) (i', s') → s' = rebuilt (extend (items s) l).
Proof.
  intros Hwf Hadds. remember (i, s) as p eqn:Hp. remember (i', s') as q eqn:Hq.
  revert i s Hp Hwf.
  induction Hadds as [|x l i0 s0 i1 s1 p Hadd _ IH]; intros i s Hp Hwf.
  - subst. injection Hp as -> ->. by apply wf_eq.
  - injection Hp as -> ->.
    assert (s1 = (add x s).2) as Hs1 by (by rewrite Hadd).
    rewrite (IH Hq i1 s1 eq_refl); [|rewrite Hs1; by apply add_wf].
    rewrite extend_cons. by rewrite Hs1, add_extend.
Qed.

Lemma update_hashables (ls : list (list T)) s :
  ∃ i s', update (hashables <$> ls) s = (Return i, s') ∧
          adds (concat ls) (0, s) (i, s').
Proof.
  destruct (for_sequences_run (hashables <$> ls) 0 s) as (i & s' & Hadds & Hrun).
  destruct (consumed_hashables ls) as [Hc Hf]. rewrite Hc in Hadds. rewrite Hf in Hrun.
  by exists i, s'.
Qed.

Lemma init_run l s0 :
  __init__ (Some (hashables l)) s0 = (Return (), rebuilt (extend [] l)).
Proof.
  unfold __init__. unfold bind at 1 2, set_items, set_map. cbn [items map].
  destruct (update_hashables [l] (mkOrderedSet [] ∅)) as (i & s' & Hrun & Hadds).
  cbn [fmap list_fmap] in Hrun. unfold bind. rewrite Hrun. unfold ret. f_equal.
  cbn in Hadds. rewrite app_nil_r in Hadds.
  apply adds_extend in Hadds; [done|]. by apply (rebuilt_wf []), NoDup_nil.
Qed.

Lemma cls_unfold l : cls l = rebuilt (extend [] l).
Proof. unfold cls. change (Iterable (Hashable <$> l)) with (hashables l). by rewrite init_run. Qed.

Lemma cls_returns l : (__init__ (Some (hashables l)) blank).1 = Return ().
Proof. by rewrite init_run. Qed.

Lemma cls_wf l : wf (cls l).
Proof. rewrite cls_unfold. apply rebuilt_wf, extend_NoDup, NoDup_nil. done. Qed.

Lemma cls_NoDup l : NoDup l → cls l = rebuilt l.
Proof. intros. rewrite cls_unfold. by rewrite extend_fresh. Qed.

Lemma elem_of_cls l x : x ∈ items (cls l) ↔ x ∈ l.
Proof. rewrite cls_unfold. cbn. rewrite elem_of_extend, elem_of_nil. tauto. Qed.

Lemma copy_wf s : wf s → copy s = s.
Proof.
  intros Hwf. unfold copy. rewrite cls_NoDup by apply Hwf. symmetry. by apply wf_eq.
Qed.

End construction.

(** ** Positional mutation *)

Section positional.
Context {T : Type} `{Countable T}.
Implicit Types (s : OrderedSet T) (l : list T) (value x : T) (k : nat).

Lemma py_index_Some (n : nat) i k :
  py_index n i = Some k →
  (k < n)%nat ∧ - Z.of_nat n ≤ i < Z.of_nat n ∧
  Z.of_nat k = (if bool_decide (i < 0) then i + Z.of_nat n else i).
Proof.
  unfold py_index. repeat case_bool_decide; intros [= <-]; lia.
Qed.

Lemma py_index_None (n : nat) i :
  py_index n i = None ↔ ¬ (- Z.of_nat n ≤ i < Z.of_nat n).
Proof. unfold py_index. repeat case_bool_decide; split; try done; lia. Qed.

Lemma py_index_nat (n : nat) k : (k < n)%nat → py_index n (Z.of_nat k) = Some k.
Proof.
  intros. unfold py_index. rewrite bool_decide_eq_true_2 by lia. by rewrite Nat2Z.id.
Qed.

Lemma py_index_normalized (n : nat) i k :
  py_index n i = Some k →
  py_index n (if bool_decide (i < 0) then i + Z.of_nat n else i) = Some k.
Proof.
  intros (Hk & _ & Hik)%py_index_Some. rewrite <- Hik. by apply py_index_nat.
Qed.

Lemma in_range_bounds (n : nat) i :
  bool_decide (- Z.of_nat n ≤ i < Z.of_nat n) = bool_decide (is_Some (py_index n i)).
Proof.
  apply bool_decide_ext. rewrite <- not_eq_None_Some, py_index_None.
  split; [tauto|]. apply dec_stable.
Qed.

Lemma delitem_run index s :
  __delitem__ index s =
  match py_index (length (items s)) index with
  | Some k => (Return (), rebuilt (delete k (items s)))
  | None => (Raise IndexError, s)
  end.
Proof.
  unfold __delitem__, bind, gets, __len__. cbn beta iota.
  rewrite in_range_bounds.
  destruct (py_index (length (items s)) index) as [k|] eqn:Hk; [|done].
  cbn. unfold items_del. rewrite (py_index_normalized _ _ _ Hk). done.
Qed.

Lemma pop_run index s :
  pop index s =
  if bool_decide (items s = []) then (Raise KeyError, s)
  else match py_index (length (items s)) index with
       | Some k =>
           match items s !! k with
           | Some elem => (Return elem, rebuilt (delete k (items s)))
           | None => (Raise IndexError, s)
           end
       | None => (Raise IndexError, s)
       end.
Proof.
  unfold pop, bind, gets. cbn beta iota. case_bool_decide; [done|].
  unfold items_get, items_del.
  destruct (py_index (length (items s)) index) as [k|] eqn:Hk; [|done]. cbn.
  destruct (items s !! k) as [elem|]; [|done]. by rewrite Hk.
Qed.

Lemma shift_down_lookup i (m : gmap T Z) x :
  shift_down i m !! x
  = (λ v, if bool_decide (v >= i) then v - 1 else v) <$> m !! x.
Proof.
  unfold shift_down.
  set (f := λ (k : T) (v : Z) (acc : gmap T Z),
              if bool_decide (v >= i) then <[k := v - 1]> acc else acc).
  set (g := λ v : Z, if bool_decide (v >= i) then v - 1 else v).
  assert (∀ m0 : gmap T Z, m ⊆ m0 → ∀ y,
            map_fold f m0 m !! y
            = match m !! y with Some v => Some (g v) | None => m0 !! y end) as Hgen.
  { intros m0.
    apply (map_fold_weak_ind (λ r (m' : gmap T Z), m' ⊆ m0 → ∀ y,
             r !! y = match m' !! y with Some v => Some (g v) | None => m0 !! y end)).
    - intros _ y. by rewrite lookup_empty.
    - intros k v m' r Hk IH Hsub y.
      assert (m' ⊆ m0) as Hsub' by (etrans; [by apply insert_subseteq|done]).
      assert (m0 !! k = Some v) as Hk0.
      { apply (lookup_weaken (<[k := v]> m')); [apply lookup_insert_eq | done]. }
      specialize (IH Hsub'). unfold f, g. destruct (decide (k = y)) as [<-|Hne].
      + rewrite lookup_insert_eq. case_bool_decide.
        * by rewrite lookup_insert_eq.
        * by rewrite IH, Hk, Hk0.
      + rewrite lookup_insert_ne by done.
        case_bool_decide; [rewrite lookup_insert_ne by done|]; apply IH. }
  rewrite (Hgen m) by done. by destruct (m !! x).
Qed.

Lemma not_elem_of_delete l k x : NoDup l → l !! k = Some x → x ∉ delete k l.
Proof.
  intros Hnd Hk. rewrite delete_take_drop.
  rewrite <- (take_drop_middle _ _ _ Hk) in Hnd.
  apply NoDup_app in Hnd as (_ & Hdisj & Hnd'). apply NoDup_cons in Hnd' as [Hx _].
  intros [Hin|Hin]%elem_of_app; [|done]. apply (Hdisj _ Hin). by left.
Qed.

Lemma delete_NoDup l k : NoDup l → NoDup (delete k l).
Proof. intros. eapply sublist_NoDup; [done|apply sublist_delete]. Qed.

(** The incremental renumbering of [discard] agrees with a rebuild. *)
Lemma shift_down_rebuild l k value :
  NoDup l → l !! k = Some value →
  shift_down (Z.of_nat k) (delete value (enumerate_dict l))
  = enumerate_dict (delete k l).
Proof.
  intros Hnd Hk. apply map_eq. intros x. rewrite shift_down_lookup.
  destruct (decide (x = value)) as [->|Hne].
  - rewrite lookup_delete_eq. cbn. symmetry.
    by apply enumerate_dict_notin, not_elem_of_delete.
  - rewrite lookup_delete_ne by done.
    destruct (enumerate_dict l !! x) as [v|] eqn:Hx; cbn.
    + apply enumerate_dict_Some in Hx as [Hv Hx]; [|done].
      assert (Z.to_nat v ≠ k) as Hvk by (intros <-; congruence).
      symmetry. case_bool_decide.
      * replace (v - 1) with (Z.of_nat (Z.to_nat v - 1)) by lia.
        apply enumerate_dict_lookup; [by apply delete_NoDup|].
        rewrite list_lookup_delete_ge by lia. rewrite <- Hx. f_equal. lia.
      * replace v with (Z.of_nat (Z.to_nat v)) at 1 by lia.
        apply enumerate_dict_lookup; [by apply delete_NoDup|].
        rewrite list_lookup_delete_lt by lia. done.
    + symmetry. apply enumerate_dict_notin. intros Hin.
      assert (x ∈ l) as Hl by (eapply elem_of_sublist; [done|apply sublist_delete]).
      apply list_elem_of_lookup in Hl as [j Hj].
      by rewrite (enumerate_dict_lookup _ j) in Hx.
Qed.

Lemma discard_absent value s :
  map s !! value = None → discard value s = (Return (), s).
Proof.
  intros Hv. unfold discard, bind, gets, __contains__. rewrite Hv. done.
Qed.

Lemma discard_present value s k :
  wf s → items s !! k = Some value →
  discard value s = (Return (), rebuilt (delete k (items s))).
Proof.
  intros Hwf Hk. pose proof (wf_position _ Hwf _ _ Hk) as Hv.
  apply wf_rebuilt in Hwf as [Hnd Hm].
  unfold discard, bind, gets, __contains__, map_get, items_del, map_del.
  rewrite Hv. cbn. rewrite Hv.
  rewrite py_index_nat by (by eapply lookup_lt_Some). cbn.
  rewrite Hv. cbn. unfold rebuilt, set_map. cbn. do 2 f_equal.
  rewrite Hm. by apply shift_down_rebuild.
Qed.

Lemma remove_run value s :
  remove value s =
  if __contains__ value s then discard value s else (Raise KeyError, s).
Proof. unfold remove, bind, gets. cbn beta iota. by destruct (__contains__ value s). Qed.

End positional.

Section setitem.
Context {T : Type} `{Countable T}.
Implicit Types (s : OrderedSet T) (l : list T) (value x : T) (k j : nat).

Lemma setitem_out_of_range index value s :
  py_index (length (items s)) index = None →
  __setitem__ index value s = (Raise IndexError, s).
Proof.
  intros Hk. unfold __setitem__, bind, gets, __len__. cbn beta iota.
  by rewrite in_range_bounds, Hk.
Qed.

(** The common prefix of the in-range paths: bounds check, index
    normalisation and the read of [old_value]. *)
Lemma setitem_in_range index value s k :
  py_index (length (items s)) index = Some k →
  __setitem__ index value s =
  (present ← gets (__contains__ value);
   if present then
     old_index ← map_get value;
     if bool_decide (old_index = Z.of_nat k) then ret () else
     items_del old_index;;
     let index := if bool_decide (old_index < Z.of_nat k)
                  then Z.of_nat k - 1 else Z.of_nat k in
     items_set index value;;
     rebuild_map
   else
     items_set (Z.of_nat k) value;;
     rebuild_map) s.
Proof.
  intros Hk. destruct (py_index_Some _ _ _ Hk) as (Hlt & _ & Hnorm).
  unfold __setitem__. unfold bind at 1, gets at 1, __len__. cbn beta iota.
  rewrite in_range_bounds, Hk. cbn [negb bool_decide decide_rel is_Some_dec].
  rewrite <- Hnorm. unfold bind at 1, items_get.
  rewrite py_index_nat by done. cbn [mbind option_bind].
  destruct (lookup_lt_is_Some_2 (items s) k Hlt) as [old_value ->]. done.
Qed.

Lemma setitem_fresh index value s k :
  py_index (length (items s)) index = Some k →
  map s !! value = None →
  __setitem__ index value s = (Return (), rebuilt (<[k := value]> (items s))).
Proof.
  intros Hk Hv. rewrite (setitem_in_range _ _ _ k) by done.
  apply py_index_Some in Hk as (Hlt & _).
  unfold bind, gets, __contains__, items_set, rebuild_map. rewrite Hv. cbn.
  rewrite py_index_nat by done. done.
Qed.

Lemma setitem_same index value s k :
  py_index (length (items s)) index = Some k →
  map s !! value = Some (Z.of_nat k) →
  __setitem__ index value s = (Return (), s).
Proof.
  intros Hk Hv. rewrite (setitem_in_range _ _ _ k) by done.
  unfold bind, gets, __contains__, map_get. rewrite Hv. cbn. rewrite Hv.
  by rewrite bool_decide_eq_true_2.
Qed.

Lemma setitem_move index value s k j :
  py_index (length (items s)) index = Some k →
  map s !! value = Some (Z.of_nat j) →
  j ≠ k → (j < length (items s))%nat →
  __setitem__ index value s =
  (Return (),
   rebuilt (<[(if decide (j < k)%nat then k - 1 else k)%nat := value]>
              (delete j (items s)))).
Proof.
  intros Hk Hv Hjk Hj. rewrite (setitem_in_range _ _ _ k) by done.
  apply py_index_Some in Hk as (Hlt & _).
  unfold bind, gets, __contains__, map_get, items_del, items_set, rebuild_map.
  rewrite Hv. cbn. rewrite Hv.
  rewrite bool_decide_eq_false_2 by lia.
  rewrite py_index_nat by done. cbn.
  assert (length (delete j (items s)) = (length (items s) - 1)%nat) as Hlen.
  { apply length_delete. by apply lookup_lt_is_Some_2. }
  destruct (decide (j < k)%nat) as [Hlt'|Hge].
  - rewrite bool_decide_eq_true_2 by lia.
    replace (Z.of_nat k - 1) with (Z.of_nat (k - 1)) by lia.
    rewrite py_index_nat by lia. done.
  - rewrite bool_decide_eq_false_2 by lia.
    rewrite py_index_nat by lia. done.
Qed.

Lemma insert_NoDup l k x : NoDup l → x ∉ l → NoDup (<[k := x]> l).
Proof.
  revert k. induction l as [|y l IH]; intros k Hnd Hx; [done|].
  apply NoDup_cons in Hnd as [Hy Hnd]. apply not_elem_of_cons in Hx as [Hxy Hx].
  destruct k as [|k].
  - apply NoDup_cons. done.
  - change (NoDup (y :: <[k := x]> l)).
    apply NoDup_cons. split; [|by apply IH].
    intros [i Hi]%list_elem_of_lookup.
    apply list_lookup_insert_Some in Hi as [(_ & ? & _)|[_ Hi]]; [congruence|].
    apply Hy. by eapply list_elem_of_lookup_2.
Qed.

End setitem.

(** ** Set algebra *)

Section algebra.
Context {T : Type} `{Countable T}.
Implicit Types (s : OrderedSet T) (l other : list T) (x : T).

Lemma update_items_run l s : _update_items l s = (Return (), rebuilt l).
Proof. done. Qed.

Lemma intersection_update_run other s :
  intersection_update other s
  = (Return (), rebuilt (filter (λ x, x ∈ (list_to_set other : gset T)) (items s))).
Proof. done. Qed.

Lemma difference_update_run other s :
  difference_update [other] s
  = (Return (), rebuilt (filter (λ x, x ∉ (list_to_set other : gset T)) (items s))).
Proof.
  unfold difference_update. cbn [foldl]. rewrite (left_id_L ∅ (∪)). done.
Qed.

Lemma symmetric_difference_update_run other s :
  symmetric_difference_update other s
  = (Return (),
     rebuilt (filter (λ x, x ∉ (list_to_set other : gset T)) (items s)
              ++ filter (λ x, __contains__ x s = false) other)).
Proof. done. Qed.

Lemma intersection_run s other :
  wf s →
  intersection s [other]
  = rebuilt (filter (λ x, x ∈ (list_to_set other : gset T)) (items s)).
Proof.
  intros Hwf. unfold intersection. cbn [fmap list_fmap foldl].
  apply cls_NoDup, NoDup_filter, Hwf.
Qed.

Lemma difference_run s other :
  wf s →
  difference s [other]
  = rebuilt (filter (λ x, x ∉ (list_to_set other : gset T)) (items s)).
Proof.
  intros Hwf. unfold difference. cbn [fmap list_fmap foldl].
  apply cls_NoDup, NoDup_filter, Hwf.
Qed.

Lemma extend_app acc l1 l2 : extend acc (l1 ++ l2) = extend (extend acc l1) l2.
Proof. apply foldl_app. Qed.

Lemma union_run s other :
  wf s → union s [other] = rebuilt (extend (items s) other).
Proof.
  intros Hwf. unfold union. cbn [concat]. rewrite app_nil_r, cls_unfold, extend_app.
  rewrite (extend_fresh [] (items s)); [done|]. apply Hwf.
Qed.

Lemma symmetric_difference_run s other :
  wf s →
  symmetric_difference s other
  = rebuilt (filter (λ x, x ∉ (list_to_set other : gset T)) (items s)
             ++ filter (λ x, x ∉ (list_to_set (items s) : gset T)) (extend [] other)).
Proof.
  intros Hwf. unfold symmetric_difference.
  fold (copy s). rewrite (copy_wf _ Hwf).
  rewrite (difference_run s) by done.
  rewrite (difference_run (cls other)) by apply cls_wf.
  rewrite cls_unfold. cbn [items rebuilt].
  unfold union. cbn [concat items]. rewrite app_nil_r.
  apply cls_NoDup, NoDup_app. split_and!.
  - apply NoDup_filter, Hwf.
  - intros x [_ Hx]%list_elem_of_filter [Hx' _]%list_elem_of_filter.
    apply Hx'. by apply elem_of_list_to_set.
  - apply NoDup_filter, extend_NoDup, NoDup_nil. done.
Qed.

(** *** In-place and pure variants agree *)

Theorem intersection_update_consistent s other :
  wf s →
  (intersection_update other (copy s)).2 = intersection s [other] ∧
  intersection s [other] = __and__ s other.
Proof.
  intros Hwf. rewrite (copy_wf _ Hwf), intersection_update_run.
  unfold __and__. by rewrite intersection_run.
Qed.

Theorem difference_update_consistent s other :
  wf s → (difference_update [other] (copy s)).2 = difference s [other].
Proof.
  intros Hwf. rewrite (copy_wf _ Hwf), difference_update_run.
  by rewrite difference_run.
Qed.

Theorem union_update_consistent s other :
  wf s → (update [hashables other] (copy s)).2 = union s [other].
Proof.
  intros Hwf. rewrite (copy_wf _ Hwf), union_run by done.
  destruct (update_hashables [other] s) as (i & s' & Hrun & Hadds).
  cbn [fmap list_fmap] in Hrun. rewrite Hrun. cbn [snd].
  cbn [concat] in Hadds. rewrite app_nil_r in Hadds.
  by eapply adds_extend.
Qed.

Theorem symmetric_difference_update_consistent s other :
  wf s → NoDup other →
  (symmetric_difference_update other (copy s)).2 = symmetric_difference s other.
Proof.
  intros Hwf Hnd. rewrite (copy_wf _ Hwf), symmetric_difference_update_run.
  rewrite symmetric_difference_run by done. cbn [snd]. do 2 f_equal.
  rewrite (extend_fresh [] other) by done. cbn [app].
  apply list_filter_iff. intros x. rewrite elem_of_list_to_set.
  rewrite <- (wf_contains _ _ Hwf). by destruct (__contains__ x s).
Qed.

End algebra.

(** ** Preservation of the invariant *)

Section preservation.
Context {T : Type} `{Countable T}.
Implicit Types (s : OrderedSet T) (l other : list T) (value x : T).

Lemma update_wf (sequences : list (@source T)) s : wf s → wf (update sequences s).2.
Proof.
  intros Hwf. destruct (for_sequences_run sequences 0 s) as (i & s' & Hadds & Hrun).
  unfold update. rewrite Hrun. by eapply adds_wf.
Qed.

Lemma delitem_wf index s : wf s → wf (__delitem__ index s).2.
Proof.
  intros Hwf. rewrite delitem_run.
  destruct (py_index (length (items s)) index); [|done].
  apply rebuilt_wf, delete_NoDup, Hwf.
Qed.

Lemma pop_wf index s : wf s → wf (pop index s).2.
Proof.
  intros Hwf. rewrite pop_run. case_bool_decide; [done|].
  destruct (py_index (length (items s)) index) as [k|]; [|done].
  destruct (items s !! k); [|done]. apply rebuilt_wf, delete_NoDup, Hwf.
Qed.

(** On a well-formed state [discard] either finds nothing to do or acts
    as a positional delete followed by a rebuild. *)
Lemma discard_cases value s :
  wf s →
  ((value ∉ items s) ∧ discard value s = (Return (), s)) ∨
  (∃ k : nat, items s !! k = Some value ∧
              discard value s = (Return (), rebuilt (delete k (items s)))).
Proof.
  intros Hwf. destruct (decide (value ∈ items s)) as [Hin|Hnotin].
  - right. apply list_elem_of_lookup in Hin as [k Hk]. exists k.
    split; [done|]. by apply discard_present.
  - left. split; [done|]. by apply discard_absent, wf_lookup_None.
Qed.

Lemma discard_wf value s : wf s → wf (discard value s).2.
Proof.
  intros Hwf. destruct (discard_cases value s Hwf) as [[_ ->]|(k & _ & ->)]; [done|].
  apply rebuilt_wf, delete_NoDup, Hwf.
Qed.

Lemma remove_wf value s : wf s → wf (remove value s).2.
Proof.
  intros Hwf. rewrite remove_run. destruct (__contains__ value s); [|done].
  by apply discard_wf.
Qed.

Lemma clear_wf s : wf (clear s).2.
Proof. apply (rebuilt_wf []), NoDup_nil. done. Qed.

(** The outcomes of [__setitem__] on a well-formed state, by where
    [value] sits relative to the target position [k]. *)
Lemma setitem_cases index value s k :
  wf s → py_index (length (items s)) index = Some k →
  ((value ∉ items s) ∧
   __setitem__ index value s = (Return (), rebuilt (<[k := value]> (items s)))) ∨
  (items s !! k = Some value ∧ __setitem__ index value s = (Return (), s)) ∨
  (∃ j : nat, j ≠ k ∧ items s !! j = Some value ∧
     __setitem__ index value s =
     (Return (),
      rebuilt (<[(if decide (j < k)%nat then k - 1 else k)%nat := value]>
                 (delete j (items s))))).
Proof.
  intros Hwf Hk. destruct (decide (value ∈ items s)) as [Hin|Hnotin].
  - right. apply list_elem_of_lookup in Hin as [j Hj].
    pose proof (wf_position _ Hwf _ _ Hj) as Hv.
    destruct (decide (j = k)) as [->|Hne].
    + left. split; [done|]. by apply (setitem_same _ _ _ k).
    + right. exists j. split_and!; [done..|].
      apply setitem_move; [done..|]. by eapply lookup_lt_Some.
  - left. split; [done|]. apply setitem_fresh; [done|]. by apply wf_lookup_None.
Qed.

Lemma setitem_wf index value s : wf s → wf (__setitem__ index value s).2.
Proof.
  intros Hwf. destruct (py_index (length (items s)) index) as [k|] eqn:Hk.
  - destruct (setitem_cases index value s k Hwf Hk)
      as [[Hnotin ->]|[[_ ->]|(j & Hne & Hj & ->)]]; [|done|].
    + apply rebuilt_wf, insert_NoDup; [apply Hwf|done].
    + apply rebuilt_wf, insert_NoDup; [apply delete_NoDup, Hwf|].
      apply not_elem_of_delete; [apply Hwf|done].
  - by rewrite setitem_out_of_range.
Qed.

Lemma intersection_update_wf other s : wf s → wf (intersection_update other s).2.
Proof. intros Hwf. apply rebuilt_wf, NoDup_filter, Hwf. Qed.

Lemma difference_update_wf (sets : list (list T)) s :
  wf s → wf (difference_update sets s).2.
Proof. intros Hwf. apply rebuilt_wf, NoDup_filter, Hwf. Qed.

Lemma symmetric_difference_update_wf other s :
  wf s → NoDup other → wf (symmetric_difference_update other s).2.
Proof.
  intros Hwf Hnd. rewrite symmetric_difference_update_run.
  apply rebuilt_wf, NoDup_app. split_and!.
  - apply NoDup_filter, Hwf.
  - intros x [Hx _]%list_elem_of_filter [_ Hx']%list_elem_of_filter.
    apply Hx. by apply elem_of_list_to_set.
  - by apply NoDup_filter.
Qed.

(** Every public mutation keeps a well-formed state well formed, with
    [symmetric_difference_update] restricted to arguments that do not
    repeat an element. *)
Theorem invariant_preserved s :
  wf s →
  (∀ value, wf (add value s).2 ∧ wf (append value s).2) ∧
  (∀ sequences, wf (update sequences s).2) ∧
  (∀ index value, wf (__setitem__ index value s).2) ∧
  (∀ index, wf (__delitem__ index s).2 ∧ wf (pop index s).2) ∧
  (∀ value, wf (remove value s).2 ∧ wf (discard value s).2) ∧
  wf (clear s).2 ∧
  (∀ other, wf (intersection_update other s).2) ∧
  (∀ sets, wf (difference_update sets s).2) ∧
  (∀ other, NoDup other → wf (symmetric_difference_update other s).2).
Proof.
  intros Hwf. split_and!.
  - intros value. split; by apply add_wf.
  - intros sequences. by apply update_wf.
  - intros index value. by apply setitem_wf.
  - intros index. split; [by apply delitem_wf | by apply pop_wf].
  - intros value. split; [by apply remove_wf | by apply discard_wf].
  - apply clear_wf.
  - intros other. by apply intersection_update_wf.
  - intros sets. by apply difference_update_wf.
  - intros other Hnd. by apply symmetric_difference_update_wf.
Qed.

End preservation.

(** ** The specified behaviour of the operations *)

Section claims.
Context {T : Type} `{Countable T}.
Implicit Types (s : OrderedSet T) (l other : list T) (value x : T).

(** C6. [add value]: when [value] is already a key of the position index,
    [add] returns the recorded index and changes nothing; otherwise it
    appends [value] at the end, records it at index = old size and returns
    that index.  Calling [add value] a second time returns the same index
    and changes nothing more, and the size grows by at most one; on a
    well-formed set the result is well formed and the returned index is
    the position of [value] in the sequence. *)
Theorem add_spec value s :
  (∀ i, map s !! value = Some i → add value s = (Return i, s)) ∧
  (map s !! value = None →
     add value s =
     (Return (__len__ s),
      mkOrderedSet (items s ++ [value]) (<[value := __len__ s]> (map s)))) ∧
  (∃ i s', add value s = (Return i, s') ∧
           add value s' = (Return i, s') ∧
           __len__ s ≤ __len__ s' ≤ __len__ s + 1 ∧
           (wf s → wf s' ∧ 0 ≤ i ∧ items s' !! Z.to_nat i = Some value)).
Proof.
  split_and!.
  - intros i Hi. by rewrite add_unfold, Hi.
  - intros Hv. by rewrite add_unfold, Hv.
  - pose proof (add_wf value s) as Hwf. rewrite (add_unfold value s) in *.
    destruct (map s !! value) as [i|] eqn:Hv.
    + exists i, s. split_and!; [done| |lia..|].
      * by rewrite add_unfold, Hv.
      * intros Hs. split; [done|]. by apply wf_lookup_Some.
    + eexists _, _. split_and!; [done| | | |].
      * rewrite add_unfold. cbn. by rewrite lookup_insert_eq.
      * unfold __len__. cbn. rewrite length_app. lia.
      * unfold __len__. cbn. rewrite length_app. cbn. lia.
      * intros Hs. split; [by apply Hwf|]. unfold __len__. cbn.
        split; [lia|]. rewrite Nat2Z.id. apply list_lookup_middle. done.
Qed.

(** C10. [update] called with no source at all, or with sources that are
    all empty, returns 0 and leaves the set as it was, whatever the set
    holds: [item_index] starts at 0 and only a call of [add] changes it. *)
Theorem update_without_items (sequences : list (@source T)) s :
  Forall (λ sequence, sequence = Iterable []) sequences →
  update sequences s = (Return 0, s).
Proof.
  unfold update. generalize 0. induction 1 as [|sequence sequences -> _ IH]; [done|].
  cbn. unfold bind, try_except_TypeError. cbn. apply IH.
Qed.

(** C4. [update] raises [ValueError] as soon as one of the sources is not
    iterable; when every source is an iterable of hashable elements it
    raises nothing and its effect is that of calling [add] on every
    element of every source, left to right, returning what the last call
    returned; on a well-formed set this appends the elements not yet
    present, each at its first occurrence. *)
Theorem update_input_shape (sequences : list (@source T)) s :
  (NotIterable ∈ sequences → (update sequences s).1 = Raise ValueError) ∧
  (∀ ls : list (list T), sequences = hashables <$> ls →
     ∃ i s', update sequences s = (Return i, s') ∧
             adds (concat ls) (0, s) (i, s') ∧
             (wf s → s' = rebuilt (extend (items s) (concat ls)))).
Proof.
  split.
  - intros Hin. destruct (for_sequences_run sequences 0 s) as (i & s' & _ & Hrun).
    unfold update. rewrite Hrun.
    assert (existsb fails sequences = true) as ->; [|done].
    apply existsb_exists. exists NotIterable. split; [|done].
    by apply list_elem_of_In.
  - intros ls ->. destruct (update_hashables ls s) as (i & s' & Hrun & Hadds).
    exists i, s'. split_and!; [done..|]. intros Hwf. by eapply adds_extend.
Qed.

(** C2 (as the code has it).  On a well-formed set, every mutating
    operation but [update] is atomic on error, whatever it is called
    with: when [pop], [__setitem__], [__delitem__], [remove], [discard],
    [add], [append], [clear], [intersection_update], [difference_update]
    or [symmetric_difference_update] raises (for an index out of range, a
    missing or empty set, a value that cannot be hashed, an argument that
    is not iterable or yields an object that cannot be hashed), the set is
    exactly as it was before the call, and such raises do occur.
    [update] is not atomic: it can only raise [ValueError], and when it
    does, every element handed to [add] before the failing point stays
    inserted. *)
Theorem error_atomicity s :
  wf s →
  (∀ index, raised (pop index s).1 → (pop index s).2 = s) ∧
  (∀ index (obj : @item T),
     raised (setitem_item index obj s).1 → (setitem_item index obj s).2 = s) ∧
  (∀ index, raised (__delitem__ index s).1 → (__delitem__ index s).2 = s) ∧
  (∀ obj : @item T,
     (raised (remove_item obj s).1 → (remove_item obj s).2 = s) ∧
     (raised (discard_item obj s).1 → (discard_item obj s).2 = s) ∧
     (raised (add_item obj s).1 → (add_item obj s).2 = s) ∧
     (raised (append_item obj s).1 → (append_item obj s).2 = s)) ∧
  (raised (clear s).1 → (clear s).2 = s) ∧
  (∀ (arg : @argument T) (args : list (@argument T)),
     (raised (intersection_update_arg arg s).1 →
        (intersection_update_arg arg s).2 = s) ∧
     (raised (difference_update_args args s).1 →
        (difference_update_args args s).2 = s) ∧
     (raised (symmetric_difference_update_arg arg s).1 →
        (symmetric_difference_update_arg arg s).2 = s)) ∧
  (discard_item Unhashable s = (Raise TypeError, s) ∧
   add_item Unhashable s = (Raise TypeError, s) ∧
   ∀ shot, intersection_update_arg (mkArgument NotIterable shot) s = (Raise TypeError, s) ∧
           symmetric_difference_update_arg (mkArgument NotIterable shot) s
           = (Raise TypeError, s)) ∧
  (∀ sequences, raised (update sequences s).1 →
     (update sequences s).1 = Raise ValueError ∧
     ∃ i, adds (consumed sequences) (0, s) (i, (update sequences s).2)).
Proof.
  intros Hwf.
  assert (∀ value, raised (discard value s).1 = false) as Hdiscard.
  { intros value. by destruct (discard_cases value s Hwf) as [[_ ->]|(k & _ & ->)]. }
  split_and!.
  - intros index. rewrite pop_run. case_bool_decide; [done|].
    destruct (py_index (length (items s)) index) as [k|]; [|done].
    by destruct (items s !! k).
  - intros index [value|].
    + cbn [setitem_item].
      destruct (py_index (length (items s)) index) as [k|] eqn:Hk.
      * by destruct (setitem_cases index value s k Hwf Hk)
          as [[_ ->]|[[_ ->]|(j & _ & _ & ->)]].
      * by rewrite setitem_out_of_range.
    + cbn [setitem_item]. unfold bind, gets, raise, items_get. cbn beta iota.
      destruct (negb _); [done|].
      by destruct (py_index (length (items s)) _ ≫= _).
  - intros index. rewrite delitem_run.
    by destruct (py_index (length (items s)) index).
  - intros [value|]; cbn [remove_item discard_item add_item append_item];
      [|by split_and!]. split_and!.
    + rewrite remove_run. destruct (__contains__ value s); [|done].
      specialize (Hdiscard value). by destruct (raised (discard value s).1).
    + specialize (Hdiscard value). by destruct (raised (discard value s).1).
    + by destruct (add_returns value s) as [i ->].
    + by destruct (add_returns value s) as [i ->].
  - done.
  - intros arg args. split_and!.
    + unfold intersection_update_arg. by destruct (set_of (supplies arg)).
    + unfold difference_update_args. by destruct (items_to_remove_of args ∅).
    + unfold symmetric_difference_update_arg, bind, gets. cbn beta iota.
      destruct (items_not_in (supplies arg) (id s)); [|done].
      by destruct (set_of (later_pass arg)).
  - done.
  - done.
  - intros shot. by split.
  - intros sequences.
    destruct (for_sequences_run sequences 0 s) as (i & s' & Hadds & Hrun).
    unfold update. rewrite Hrun. cbn [fst snd].
    destruct (existsb fails sequences); [|done]. intros _. split; [done|].
    by exists i.
Qed.

(** C8. On a well-formed set [discard] never raises.  When [value] is
    absent the state is unchanged; when [value] sits at position [k], the
    incremental strategy of [discard] (delete the element, delete its key,
    decrement every stored index at or above [k]) ends in exactly the state
    that [__delitem__] at [k] reaches by deleting and rebuilding the whole
    position index. *)
Theorem discard_spec value s :
  wf s →
  raised (discard value s).1 = false ∧
  (value ∉ items s → discard value s = (Return (), s)) ∧
  (∀ k : nat, items s !! k = Some value →
     discard value s = (Return (), rebuilt (delete k (items s))) ∧
     discard value s = __delitem__ (Z.of_nat k) s).
Proof.
  intros Hwf. split_and!.
  - by destruct (discard_cases value s Hwf) as [[_ ->]|(k & _ & ->)].
  - intros Hnotin. by apply discard_absent, wf_lookup_None.
  - intros k Hk. rewrite (discard_present value s k) by done. split; [done|].
    rewrite delitem_run, py_index_nat; [done|]. by eapply lookup_lt_Some.
Qed.

(** C9. For every well-formed set, empty or not, the pickled state is
    truthy, so unpickling runs [__setstate__], and [__setstate__] on that
    state rebuilds the very same set, which [__eq__] accepts as equal;
    building a new set from the exported element sequence gives the same
    set as well.  The state of the empty set is the sentinel [(None,)],
    which rebuilds the empty set, whereas an empty list as state would be
    taken for no data and [__setstate__] would not run. *)
Theorem pickle_roundtrip s :
  wf s →
  truthy (__getstate__ s) = true ∧
  __setstate__ (__getstate__ s) blank = (Return (), s) ∧
  (∃ s', unpickle (__getstate__ s) = Some s' ∧ s' = s ∧
         __eq__ s' (as_operand s) = true) ∧
  new (Some (hashables (items s))) = Return s ∧
  (items s = [] →
     __getstate__ s = NoneTuple ∧ unpickle NoneTuple = Some s ∧
     unpickle (T:=T) (StateList []) = None).
Proof.
  intros Hwf.
  assert (rebuilt (extend [] (items s)) = s) as Hs.
  { rewrite <- cls_unfold. by apply copy_wf. }
  assert (truthy (__getstate__ s) = true) as Htruthy.
  { unfold __getstate__, __len__. case_bool_decide as Hlen; [done|].
    cbn. apply bool_decide_eq_true_2. intros Hnil. by rewrite Hnil in Hlen. }
  assert (__setstate__ (__getstate__ s) blank = (Return (), s)) as Hset.
  { unfold __getstate__, __len__. case_bool_decide as Hlen; cbn [__setstate__].
    - change (Iterable []) with (hashables (T:=T) []). rewrite init_run.
      assert (items s = []) as Hitems by (apply nil_length_inv; lia).
      rewrite Hitems in Hs. by rewrite Hs.
    - change (Iterable (Hashable <$> items s)) with (hashables (items s)).
      by rewrite init_run, Hs. }
  split_and!; [done..| | |].
  - exists s. unfold unpickle. rewrite Htruthy, Hset. split_and!; [done..|].
    cbn. by apply bool_decide_eq_true_2.
  - unfold new. by rewrite init_run, Hs.
  - intros Hnil.
    assert (__getstate__ s = NoneTuple) as Hg.
    { unfold __getstate__, __len__. by rewrite Hnil. }
    rewrite Hg in Hset. split_and!; [done| |].
    + unfold unpickle. cbn [truthy]. by rewrite Hset.
    + unfold unpickle. cbn [truthy]. by rewrite bool_decide_eq_false_2 by auto.
Qed.

End claims.

(** ** Positional replacement and symmetric difference, with the worked
    examples of the specification *)

Lemma py_index_in_range (n : nat) (i : Z) :
  - Z.of_nat n ≤ i < Z.of_nat n →
  py_index n i
  = Some (Z.to_nat (if bool_decide (i < 0) then i + Z.of_nat n else i)).
Proof.
  intros Hi. destruct (py_index n i) as [k|] eqn:Hk.
  - apply py_index_Some in Hk as (_ & _ & <-). by rewrite Nat2Z.id.
  - by apply py_index_None in Hk.
Qed.

(** C5. [__setitem__ index value] on a well-formed set of size [n]: an
    index outside [-n <= index < n] raises [IndexError] and changes
    nothing.  Otherwise, with [k] the position the index denotes: a value
    not yet in the set replaces the element at [k]; a value already at [k]
    leaves the set untouched; a value sitting at another position [j] is
    first removed from [j], which shifts the later elements left, and then
    written at the target position, which is [k - 1] when [j] was before
    [k] and [k] otherwise.  The position index is rebuilt and the result is
    well formed.  For [a, b, c], setting position 0 to [c] gives
    [c, b]. *)
Theorem setitem_spec :
  (∀ (T : Type) `{Countable T} (s : OrderedSet T) (index : Z) (value : T),
     wf s →
     let n := __len__ s in
     let k := Z.to_nat (if bool_decide (index < 0) then index + n else index) in
     (¬ (- n ≤ index < n) → __setitem__ index value s = (Raise IndexError, s)) ∧
     (- n ≤ index < n →
        ((value ∉ items s) →
           __setitem__ index value s
           = (Return (), rebuilt (<[k := value]> (items s)))) ∧
        (items s !! k = Some value → __setitem__ index value s = (Return (), s)) ∧
        (∀ j : nat, j ≠ k → items s !! j = Some value →
           __setitem__ index value s
           = (Return (),
              rebuilt (<[(if decide (j < k)%nat then k - 1 else k)%nat := value]>
                         (delete j (items s)))))) ∧
     wf (__setitem__ index value s).2) ∧
  items (__setitem__ 0 "c" (cls ["a"; "b"; "c"])).2 = ["c"; "b"]%string.
Proof.
  split; [|by vm_compute].
  intros T ? ? s index value Hwf n k. split_and!.
  - intros Hout. by apply setitem_out_of_range, py_index_None.
  - intros Hin. pose proof (py_index_in_range _ _ Hin) as Hk. split_and!.
    + intros Hnotin. apply setitem_fresh; [done|]. by apply wf_lookup_None.
    + intros Hv. apply (setitem_same _ _ _ k); [done|]. by apply wf_position.
    + intros j Hne Hj. apply setitem_move; [done| |done|].
      * by apply wf_position.
      * by eapply lookup_lt_Some.
  - by apply setitem_wf.
Qed.

(** [symmetric_difference] with an argument that can be iterated again
    (a list, tuple, set or ordered set, here the list [other]).  The
    symmetric difference of a well-formed set with [other] is a new
    well-formed set holding exactly the elements that are in one of the
    two but not in both: first the elements of [self] that [other] lacks,
    in the order of [self], then the elements of [other] that [self]
    lacks, in the order of their first occurrence in [other].  It is the
    union of [self - other] with [other - self].  For [a, b, c] and
    [b, d] it is [a, c, d]. *)
Theorem symmetric_difference_spec :
  (∀ (T : Type) `{Countable T} (s : OrderedSet T) (other : list T),
     wf s →
     let r := symmetric_difference s other in
     wf r ∧
     (∀ x, x ∈ items r ↔ (x ∈ items s ∧ x ∉ other) ∨ (x ∈ other ∧ x ∉ items s)) ∧
     items r = filter (λ x, x ∉ other) (items s)
               ++ filter (λ x, x ∉ items s) (extend [] other) ∧
     r = union (difference s [other]) [items (difference (cls other) [items s])]) ∧
  items (symmetric_difference (cls ["a"; "b"; "c"]) ["b"; "d"])
  = ["a"; "c"; "d"]%string.
Proof.
  split; [|by vm_compute].
  intros T ? ? s other Hwf r.
  assert (items r = filter (λ x, x ∉ other) (items s)
                    ++ filter (λ x, x ∉ items s) (extend [] other)) as Hitems.
  { unfold r. rewrite symmetric_difference_run by done. cbn [items rebuilt].
    f_equal; apply list_filter_iff; intros x; by rewrite elem_of_list_to_set. }
  split_and!; [| |done|].
  - unfold r, symmetric_difference, union. apply cls_wf.
  - intros x. rewrite Hitems, elem_of_app, !list_elem_of_filter, elem_of_extend.
    rewrite elem_of_nil. tauto.
  - unfold r, symmetric_difference. fold (copy s). by rewrite copy_wf.
Qed.

(** C7 at the input where the code falls short of it.
    [symmetric_difference] passes over [other] twice, once in
    [difference(other)] and once in [cls(other)].  An iterator is used up
    by the first pass, so the second finds nothing: for the set [1, 2]
    and an iterator over [2, 3] the result is [1], and the element 3,
    which is in exactly one of the two, is missing.  The same elements
    given as a list give [1, 3]. *)
Theorem symmetric_difference_uses_up_iterator :
  symmetric_difference_arg (cls [1; 2] : OrderedSet Z) (iter [2; 3])
  = Return (cls [1]) ∧
  items (cls [1] : OrderedSet Z) = [1] ∧
  symmetric_difference_arg (cls [1; 2] : OrderedSet Z) (list_argument [2; 3])
  = Return (cls [1; 3]) ∧
  items (cls [1; 3] : OrderedSet Z) = [1; 3].
Proof. by vm_compute. Qed.

(** C1 at the input where the code leaves the invariant.
    [symmetric_difference_update] appends the elements of [other] that the
    set lacks once per occurrence: from the well-formed set [1] and the
    argument [2, 2] it produces the sequence [1, 2, 2] with the index
    [{1: 0, 2: 2}], where 2 is stored twice, the element at position 1 is
    indexed at 2, and the sequence is longer than the index. *)
Theorem symmetric_difference_update_breaks_invariant :
  wf (cls [1] : OrderedSet Z) ∧
  symmetric_difference_update [2; 2] (cls [1])
  = (Return (), mkOrderedSet [1; 2; 2] (<[2 := 2]> (<[1 := 0]> ∅))) ∧
  ¬ wf (symmetric_difference_update [2; 2] (cls [1] : OrderedSet Z)).2.
Proof.
  split_and!.
  - apply cls_wf.
  - by vm_compute.
  - intros [_ Hnd _]. vm_compute in Hnd.
    apply NoDup_cons in Hnd as [_ Hnd]. apply NoDup_cons in Hnd as [Hnotin _].
    apply Hnotin. left.
Qed.

(** C3 at the input where the in-place and the pure symmetric difference
    part: for the set [1] and the argument [2, 2] the in-place operation
    run on a copy ends with the sequence [1, 2, 2], the pure one returns
    [1, 2], and [__eq__] tells them apart. *)
Theorem symmetric_difference_update_inconsistent :
  items (symmetric_difference_update [2; 2] (copy (cls [1] : OrderedSet Z))).2
  = [1; 2; 2] ∧
  items (symmetric_difference (cls [1] : OrderedSet Z) [2; 2]) = [1; 2] ∧
  __eq__ (symmetric_difference_update [2; 2] (copy (cls [1] : OrderedSet Z))).2
         (as_operand (symmetric_difference (cls [1]) [2; 2])) = false.
Proof. by vm_compute. Qed.

(** C2 as stated fails: [update] with a list followed by a non-iterable
    raises, yet the elements of the list have been inserted. *)
Lemma update_not_atomic :
  raised (update [hashables [1; 2]; NotIterable] (cls [5] : OrderedSet Z)).1 = true ∧
  (update [hashables [1; 2]; NotIterable] (cls [5] : OrderedSet Z)).2 ≠ cls [5] ∧
  items (update [hashables [1; 2]; NotIterable] (cls [5] : OrderedSet Z)).2 = [5; 1; 2].
Proof.
  split_and!; [by vm_compute| |by vm_compute].
  intros Heq. apply (f_equal items) in Heq. vm_compute in Heq. discriminate.
Qed.

(** ** The statements at concrete sets *)

Lemma add_spec_witness :
  map (cls [7; 8] : OrderedSet Z) !! 8 = Some 1 ∧
  add 8 (cls [7; 8]) = (Return 1, cls [7; 8]).
Proof.
  split; [by vm_compute|].
  apply (proj1 (add_spec 8 (cls [7; 8]))). by vm_compute.
Defined.

Lemma update_without_items_witness :
  Forall (λ sequence : @source Z, sequence = Iterable []) [Iterable []; Iterable []] ∧
  update [Iterable []; Iterable []] (cls [4; 9] : OrderedSet Z) = (Return 0, cls [4; 9]).
Proof.
  split; [by repeat constructor|].
  apply update_without_items. by repeat constructor.
Defined.

Lemma update_input_shape_witness :
  NotIterable ∈ [hashables [1]; @NotIterable Z] ∧
  (update [hashables [1]; NotIterable] (cls [] : OrderedSet Z)).1 = Raise ValueError.
Proof.
  split; [by right; left|].
  apply (proj1 (update_input_shape [hashables [1]; NotIterable] (cls []))).
  by right; left.
Defined.

Lemma error_atomicity_witness :
  wf (cls [1; 2; 3] : OrderedSet Z) ∧
  (pop 7 (cls [1; 2; 3] : OrderedSet Z)).2 = cls [1; 2; 3].
Proof.
  split; [apply cls_wf|].
  apply (proj1 (error_atomicity (cls [1; 2; 3]) (cls_wf _)) 7). by vm_compute.
Defined.

Lemma discard_spec_witness :
  wf (cls [1; 2; 3] : OrderedSet Z) ∧
  discard 2 (cls [1; 2; 3] : OrderedSet Z) = __delitem__ 1 (cls [1; 2; 3]).
Proof.
  split; [apply cls_wf|].
  apply (proj2 (proj2 (discard_spec 2 (cls [1; 2; 3]) (cls_wf _))) 1%nat).
  by vm_compute.
Defined.

Lemma pickle_roundtrip_witness :
  wf (cls [3; 1] : OrderedSet Z) ∧
  unpickle (__getstate__ (cls [3; 1] : OrderedSet Z)) = Some (cls [3; 1]).
Proof.
  split; [apply cls_wf|].
  destruct (pickle_roundtrip (cls [3; 1] : OrderedSet Z) (cls_wf _))
    as (_ & _ & (s' & Hs' & -> & _) & _).
  exact Hs'.
Defined.

Lemma setitem_spec_witness :
  wf (cls ["a"; "b"; "c"] : OrderedSet string) ∧
  __setitem__ 3 "z" (cls ["a"; "b"; "c"])
  = (Raise IndexError, cls ["a"; "b"; "c"] : OrderedSet string).
Proof.
  split; [apply cls_wf|].
  destruct (proj1 setitem_spec string _ _ (cls ["a"; "b"; "c"]) 3 "z"%string (cls_wf _))
    as (Hout & _).
  apply Hout. intros [_ Hlt]. vm_compute in Hlt. discriminate.
Defined.

Lemma symmetric_difference_spec_witness :
  wf (cls ["a"; "b"; "c"] : OrderedSet string) ∧
  wf (symmetric_difference (cls ["a"; "b"; "c"]) ["b"; "d"] : OrderedSet string).
Proof.
  split; [apply cls_wf|].
  apply (proj1 (proj1 symmetric_difference_spec string _ _
                  (cls ["a"; "b"; "c"]) ["b"; "d"]%string (cls_wf _))).
Defined.

(** ** Further properties: construction and bulk insertion *)

Section construction_properties.
Context {T : Type} `{Countable T}.
Implicit Types (s : OrderedSet T) (l acc : list T) (x : T).

Lemma filter_first_occurrences_comm (P : T → Prop) `{∀ x, Decision (P x)} l :
  filter P (first_occurrences l) = first_occurrences (filter P l).
Proof.
  induction l as [|x l IH]; [done|]. cbn [first_occurrences].
  rewrite !filter_cons. destruct (decide (P x)); cbn [first_occurrences].
  - f_equal. rewrite <- IH. rewrite !list_filter_filter. apply list_filter_iff. tauto.
  - rewrite <- IH. rewrite list_filter_filter. apply list_filter_iff.
    intros y. split; [tauto|]. intros Hy. split; [done|]. by intros ->.
Qed.

Lemma extend_first_occurrences acc l :
  extend acc l = acc ++ filter (λ y, y ∉ acc) (first_occurrences l).
Proof.
  revert acc. induction l as [|x l IH]; intros acc.
  - cbn. by rewrite app_nil_r.
  - rewrite extend_cons, IH. cbn [first_occurrences]. rewrite filter_cons.
    destruct (decide (x ∈ acc)) as [Hin|Hnotin].
    + rewrite decide_False by tauto. f_equal.
      rewrite list_filter_filter. apply list_filter_iff.
      intros y. split; [|tauto]. intros Hy. split; [done|]. by intros ->.
    + rewrite decide_True by done. rewrite <- app_assoc. cbn [app]. do 2 f_equal.
      rewrite list_filter_filter. apply list_filter_iff.
      intros y. rewrite elem_of_app, list_elem_of_singleton. tauto.
Qed.

Lemma first_occurrences_elem l x : x ∈ first_occurrences l ↔ x ∈ l.
Proof.
  induction l as [|y l IH]; [done|]. cbn [first_occurrences].
  rewrite !elem_of_cons, list_elem_of_filter, IH.
  destruct (decide (x = y)); tauto.
Qed.

Lemma first_occurrences_NoDup l : NoDup (first_occurrences l).
Proof.
  induction l as [|y l IH]; cbn [first_occurrences]; [apply NoDup_nil; done|].
  apply NoDup_cons. split; [|by apply NoDup_filter].
  rewrite list_elem_of_filter. tauto.
Qed.

Lemma cls_first_occurrences l : cls l = rebuilt (first_occurrences l).
Proof.
  rewrite cls_unfold, extend_first_occurrences. cbn [app]. f_equal.
  induction (first_occurrences l) as [|y k IH]; [done|].
  rewrite filter_cons_True by apply not_elem_of_nil. by rewrite IH.
Qed.

(** X1. [OrderedSet(l)] keeps the distinct elements of [l] in the order
    of their first occurrences: the result satisfies the invariant, holds
    exactly the elements of [l], is a subsequence of [l], and is [l]
    itself when [l] has no repeats.  Building a set from the elements of a
    set changes nothing. *)
Theorem construction_first_occurrences l :
  items (cls l) = first_occurrences l ∧
  wf (cls l) ∧
  (∀ x, x ∈ items (cls l) ↔ x ∈ l) ∧
  items (cls l) `sublist_of` l ∧
  (NoDup l → cls l = rebuilt l) ∧
  cls (items (cls l)) = cls l.
Proof.
  split_and!.
  - by rewrite cls_first_occurrences.
  - apply cls_wf.
  - apply elem_of_cls.
  - rewrite cls_first_occurrences. cbn [items rebuilt].
    induction l as [|x l IH]; [done|]. cbn [first_occurrences].
    apply sublist_skip. etrans; [apply sublist_filter|done].
  - apply cls_NoDup.
  - apply (copy_wf (cls l)), cls_wf.
Qed.

(** X2. The constructor with no argument gives the empty set.  Given an
    object that is not iterable, or an iterable that yields an object that
    cannot be hashed, it raises [ValueError]; given any other iterable it
    returns. *)
Theorem constructor_errors :
  new None = Return (mkOrderedSet ([] : list T) ∅) ∧
  (∀ sequence : @source T,
     new (Some sequence) =
     if fails sequence then Raise ValueError
     else Return (cls (items_before_failure
                         (match sequence with Iterable l => l | NotIterable => [] end)))).
Proof.
  split; [done|]. intros sequence. unfold new, __init__.
  unfold bind at 1 2, set_items, set_map. cbn [items map].
  destruct (for_sequences_run [sequence] 0 (mkOrderedSet [] ∅))
    as (i & s' & Hadds & Hrun).
  unfold bind, update. rewrite Hrun. cbn [existsb]. rewrite orb_false_r.
  destruct (fails sequence) eqn:Hfails; [done|]. unfold ret. f_equal.
  destruct sequence as [l|]; [|done].
  cbn [consumed] in Hadds. rewrite Hfails, app_nil_r in Hadds.
  apply adds_extend in Hadds; [|by apply (rebuilt_wf []), NoDup_nil].
  by rewrite cls_unfold.
Qed.

Lemma add_position x s i s' :
  wf s → add x s = (Return i, s') →
  wf s' ∧ 0 ≤ i ∧ items s' !! Z.to_nat i = Some x ∧ map s' !! x = Some i.
Proof.
  intros Hwf Hadd.
  assert (wf s') as Hwf'.
  { replace s' with (add x s).2 by (by rewrite Hadd). by apply add_wf. }
  assert (map s' !! x = Some i) as Hx.
  { rewrite add_unfold in Hadd. destruct (map s !! x) as [j|] eqn:Hj.
    - by injection Hadd as <- <-.
    - injection Hadd as <- <-. cbn. by rewrite lookup_insert_eq. }
  split_and!; [done| | |done]; by apply (wf_lookup_Some s' x i).
Qed.

Lemma adds_snoc l x p i s' :
  adds (l ++ [x]) p (i, s') → ∃ j s1, adds l p (j, s1) ∧ add x s1 = (Return i, s').
Proof.
  revert p. induction l as [|y l IH]; intros p Hadds.
  - inversion Hadds as [|? ? i0 s0 i1 s1 ? Hadd Hrest]; subst.
    inversion Hrest; subst. exists i0, s0. split; [constructor|done].
  - inversion Hadds as [|? ? i0 s0 i1 s1 ? Hadd Hrest]; subst.
    destruct (IH _ Hrest) as (j & s2 & Hl & Hx).
    exists j, s2. split; [|done]. econstructor; eauto.
Qed.

(** X3. When [update] is given iterables of hashable elements, not all
    empty, on a well-formed set, the index it returns is the position, in
    the updated set, of the last element of the last non-empty iterable,
    whether or not that element was already present. *)
Theorem update_returns_last_position (ls : list (list T)) l x s :
  wf s → concat ls = l ++ [x] →
  ∃ i s', update (hashables <$> ls) s = (Return i, s') ∧
          wf s' ∧ 0 ≤ i ∧ items s' !! Z.to_nat i = Some x ∧
          map s' !! x = Some i.
Proof.
  intros Hwf Hls.
  destruct (update_hashables ls s) as (i & s' & Hrun & Hadds).
  exists i, s'. split; [done|]. rewrite Hls in Hadds.
  apply adds_snoc in Hadds as (j & s1 & Hl & Hx).
  eapply add_position; [|done]. by eapply adds_wf.
Qed.

End construction_properties.

(** ** Further properties: positional reads and lookups *)

Section reading_properties.
Context {T : Type} `{Countable T}.
Implicit Types (s : OrderedSet T) (l : list T) (x : T) (k : nat).

Lemma items_get_at s i k x :
  py_index (length (items s)) i = Some k → items s !! k = Some x →
  (items_get i s).1 = Return x.
Proof. intros Hk Hx. unfold items_get. rewrite Hk. cbn. by rewrite Hx. Qed.

Lemma items_get_out_of_range s i :
  ¬ (- __len__ s ≤ i < __len__ s) → (items_get i s).1 = Raise IndexError.
Proof.
  intros Hi. unfold items_get.
  by rewrite (proj2 (py_index_None (length (items s)) i) Hi).
Qed.

Lemma items_get_in_range s i :
  - __len__ s ≤ i < __len__ s →
  ∃ k x, py_index (length (items s)) i = Some k ∧ items s !! k = Some x ∧
         (items_get i s).1 = Return x.
Proof.
  intros Hi. pose proof (py_index_in_range _ _ Hi) as Hk.
  destruct (py_index_Some _ _ _ Hk) as (Hlt & _).
  destruct (lookup_lt_is_Some_2 _ _ Hlt) as [x Hx].
  eexists _, x. split_and!; [done..|]. by eapply items_get_at.
Qed.

Lemma items_get_Return s i x :
  (items_get i s).1 = Return x →
  ∃ k, py_index (length (items s)) i = Some k ∧ items s !! k = Some x.
Proof.
  unfold items_get. destruct (py_index (length (items s)) i) as [k|]; [|done].
  cbn. destruct (items s !! k) as [y|] eqn:Hy; [|done]. intros [= ->]. eauto.
Qed.

Lemma py_index_from_end (n k : nat) :
  (k < n)%nat → py_index n (Z.of_nat k - Z.of_nat n) = Some k.
Proof.
  intros Hk. unfold py_index.
  rewrite bool_decide_eq_false_2, bool_decide_eq_true_2 by lia. f_equal. lia.
Qed.

(** X4. Reading by an integer: position [k] of the sequence is read by
    index [k] and equally by [k - len]; an index outside
    [-len <= i < len] raises [IndexError]; and counting back from [-1]
    reads the elements in the order [__reversed__] yields them. *)
Theorem getitem_int s :
  (∀ k x, items s !! k = Some x →
     __getitem__ (IntKey (Z.of_nat k)) s = Return (ItemValue x) ∧
     __getitem__ (IntKey (Z.of_nat k - __len__ s)) s = Return (ItemValue x)) ∧
  (∀ i, ¬ (- __len__ s ≤ i < __len__ s) →
     __getitem__ (IntKey i) s = Raise IndexError) ∧
  (∀ k x, __reversed__ s !! k = Some x →
     __getitem__ (IntKey (- 1 - Z.of_nat k)) s = Return (ItemValue x)).
Proof.
  assert (∀ k x, items s !! k = Some x →
            __getitem__ (IntKey (Z.of_nat k - __len__ s)) s = Return (ItemValue x))
    as Hneg.
  { intros k x Hx. pose proof (lookup_lt_Some _ _ _ Hx) as Hlt. cbn.
    by rewrite (items_get_at s _ k x) by (by try apply py_index_from_end). }
  split_and!.
  - intros k x Hx. split; [|by apply Hneg].
    pose proof (lookup_lt_Some _ _ _ Hx) as Hlt. cbn.
    by rewrite (items_get_at s _ k x) by (by try apply py_index_nat).
  - intros i Hi. cbn. by rewrite items_get_out_of_range.
  - intros k x Hx. unfold __reversed__ in Hx.
    pose proof (lookup_lt_Some _ _ _ Hx) as Hlt. rewrite length_reverse in Hlt.
    rewrite reverse_lookup in Hx by done.
    replace (- 1 - Z.of_nat k)
      with (Z.of_nat (length (items s) - S k) - __len__ s)
      by (unfold __len__; lia).
    by apply Hneg.
Qed.

(** X5. Reading by an iterable of integers returns a plain list with one
    element per index, in the order asked for (repeats included), each
    being what reading by that integer gives; if any index is out of
    range the whole read raises [IndexError]. *)
Theorem getitem_iterable s (idx : list Z) :
  (Forall (λ i, - __len__ s ≤ i < __len__ s) idx →
     ∃ xs, __getitem__ (IterableKey (IntSubscript <$> idx)) s = Return (ListValue xs) ∧
           Forall2 (λ i x, __getitem__ (IntKey i) s = Return (ItemValue x)) idx xs) ∧
  (Exists (λ i, ¬ (- __len__ s ≤ i < __len__ s)) idx →
     __getitem__ (IterableKey (IntSubscript <$> idx)) s = Raise IndexError).
Proof.
  split.
  - intros Hall.
    assert (∃ xs, getitems (IntSubscript <$> idx) s = Return xs ∧
                  Forall2 (λ i x, __getitem__ (IntKey i) s = Return (ItemValue x)) idx xs)
      as (xs & Hrun & Hxs).
    { induction Hall as [|i idx Hi _ (xs & Hrun & Hxs)].
      - exists []. split; [done|constructor].
      - destruct (items_get_in_range s i Hi) as (k & x & _ & _ & Hx).
        exists (x :: xs). cbn [fmap list_fmap getitems]. rewrite Hx.
        change (list_fmap _ _ IntSubscript idx) with (IntSubscript <$> idx).
        rewrite Hrun. split; [done|]. constructor; [|done]. cbn. by rewrite Hx. }
    exists xs. cbn. by rewrite Hrun.
  - intros Hex.
    assert (getitems (IntSubscript <$> idx) s = Raise IndexError) as Hrun.
    { induction idx as [|i idx IH]; [by apply Exists_nil in Hex|].
      cbn [fmap list_fmap getitems].
      change (list_fmap _ _ IntSubscript idx) with (IntSubscript <$> idx).
      destruct (decide (- __len__ s ≤ i < __len__ s)) as [Hi|Hi].
      + destruct (items_get_in_range s i Hi) as (k & x & _ & _ & Hx).
        rewrite Hx. apply Exists_cons in Hex as [Hex|Hex]; [done|].
        by rewrite IH.
      + by rewrite items_get_out_of_range. }
    cbn. by rewrite Hrun.
Qed.

Lemma omap_lookup_range l (a : Z) (c : nat) :
  0 ≤ a →
  omap (λ k : nat, l !! Z.to_nat (a + Z.of_nat k * 1)) (seq 0 c)
  = take c (drop (Z.to_nat a) l).
Proof.
  intros Ha. induction c as [|c IH]; [done|].
  rewrite seq_S, omap_app, IH.
  cbn -[take drop Z.to_nat Z.of_nat Z.add Z.mul].
  replace (Z.to_nat (a + Z.of_nat c * 1)) with (Z.to_nat a + c)%nat by lia.
  rewrite <- lookup_drop.
  destruct (drop (Z.to_nat a) l !! c) as [x|] eqn:Hx; cbn.
  - symmetry. by apply take_S_r.
  - apply lookup_ge_None in Hx. rewrite app_nil_r, !take_ge by lia. done.
Qed.

Lemma list_slice_elements l start stop step xs x :
  list_slice l start stop step = Return xs → x ∈ xs → x ∈ l.
Proof.
  unfold list_slice. case_bool_decide; [done|]. intros [= <-].
  intros (k & _ & Hk)%list_elem_of_omap. by eapply list_elem_of_lookup_2.
Qed.

Lemma omap_total_length {A B} (f : A → option B) (l : list A) :
  (∀ a, a ∈ l → is_Some (f a)) → length (omap f l) = length l.
Proof.
  induction l as [|a l IH]; intros Hf; [done|]. cbn.
  destruct (Hf a) as [b ->]; [by left|]. cbn. rewrite IH; [done|].
  intros a' Ha'. apply Hf. by right.
Qed.

Lemma adjust_bound_range n step b :
  0 ≤ n →
  (step < 0 → -1 ≤ adjust_bound n step b ≤ n - 1) ∧
  (¬ step < 0 → 0 ≤ adjust_bound n step b ≤ n).
Proof. intros Hn. unfold adjust_bound. repeat case_bool_decide; lia. Qed.

(** A slice reads inside the list only: every position it computes holds
    an element, so the result has exactly [slice_length] elements. *)
Lemma list_slice_length (l : list T) start stop step xs :
  list_slice l start stop step = Return xs →
  Z.of_nat (length xs)
  = slice_length (slice_start (Z.of_nat (length l)) (default 1 step) start)
                 (slice_stop (Z.of_nat (length l)) (default 1 step) stop)
                 (default 1 step).
Proof.
  unfold list_slice. set (n := Z.of_nat (length l)). set (st := default 1 step).
  case_bool_decide as Hst; [done|]. intros [= <-].
  set (a := slice_start n st start). set (b := slice_stop n st stop).
  assert (0 ≤ n) as Hn by (unfold n; lia).
  assert ((st < 0 → -1 ≤ a ≤ n - 1 ∧ -1 ≤ b ≤ n - 1) ∧
          (¬ st < 0 → 0 ≤ a ≤ n ∧ 0 ≤ b ≤ n)) as Hab.
  { unfold a, b, slice_start, slice_stop.
    pose proof (adjust_bound_range n st) as Hadj.
    destruct start as [s0|], stop as [s1|];
      try pose proof (Hadj s0 Hn); try pose proof (Hadj s1 Hn);
      repeat case_bool_decide; lia. }
  assert (0 ≤ slice_length a b st) as Hlen.
  { unfold slice_length. repeat case_bool_decide; try lia.
    - assert (0 ≤ (a - b - 1) `div` (- st)) by (apply Z.div_pos; lia). lia.
    - assert (0 ≤ (b - a - 1) `div` st) by (apply Z.div_pos; lia). lia. }
  rewrite omap_total_length.
  - rewrite length_seq. lia.
  - intros k Hk%elem_of_seq. apply lookup_lt_is_Some.
    unfold slice_length in *. fold n.
    destruct (bool_decide (st < 0)) eqn:Hneg.
    + apply bool_decide_eq_true in Hneg. destruct Hab as [Hab _]. specialize (Hab Hneg).
      case_bool_decide; [|lia].
      pose proof (Z.mul_div_le (a - b - 1) (- st) ltac:(lia)).
      assert (Z.of_nat k ≤ (a - b - 1) `div` (- st)) by lia.
      assert (Z.of_nat k * (- st) ≤ (a - b - 1) `div` (- st) * (- st)) by nia.
      nia.
    + apply bool_decide_eq_false in Hneg. destruct Hab as [_ Hab]. specialize (Hab Hneg).
      case_bool_decide; [|lia].
      pose proof (Z.mul_div_le (b - a - 1) st ltac:(lia)).
      assert (Z.of_nat k ≤ (b - a - 1) `div` st) by lia.
      assert (Z.of_nat k * st ≤ (b - a - 1) `div` st * st) by nia.
      nia.
Qed.

(** X6. Reading by a slice.  The full slice [s[:]] of a well-formed set
    is a copy equal to the set.  A slice with step 0 raises [ValueError];
    every other slice returns, however far out of range its bounds are,
    and the result is a well-formed set whose elements come from [s].  On
    a well-formed set, [s[a:b]] with [a <= b <= len] is the set of the
    elements at positions [a] up to [b - 1], in their order. *)
Theorem getitem_slice s :
  (wf s → __getitem__ SLICE_ALL s = Return (SetValue s)) ∧
  (∀ start stop step,
     (step = Some 0 →
        __getitem__ (SliceKey start stop step) s = Raise ValueError) ∧
     (step ≠ Some 0 →
        ∃ r, __getitem__ (SliceKey start stop step) s = Return (SetValue r) ∧
             wf r ∧ ∀ x, x ∈ items r → x ∈ items s)) ∧
  (wf s → ∀ a b : nat, (a ≤ b ≤ length (items s))%nat →
     __getitem__ (SliceKey (Some (Z.of_nat a)) (Some (Z.of_nat b)) None) s
     = Return (SetValue (rebuilt (take (b - a) (drop a (items s)))))).
Proof.
  split_and!.
  - intros Hwf. cbn. by rewrite copy_wf.
  - intros start stop step. split.
    + intros ->. cbn. by rewrite bool_decide_eq_false_2 by (by intros (_ & _ & ?)).
    + intros Hstep. cbn [__getitem__]. case_bool_decide.
      * exists (copy s). split_and!; [done|apply cls_wf|].
        intros x. unfold copy. by rewrite elem_of_cls.
      * destruct (list_slice (items s) start stop step) as [xs|e] eqn:Hxs.
        -- exists (cls xs). split_and!; [done|apply cls_wf|].
           intros x. rewrite elem_of_cls. apply (list_slice_elements _ _ _ _ _ _ Hxs).
        -- unfold list_slice in Hxs.
           destruct (bool_decide (default 1 step = 0)) eqn:Hzero; [|done].
           apply bool_decide_eq_true in Hzero.
           destruct step as [step|]; [|done]. cbn in Hzero. by subst.
  - intros Hwf a b Hab. cbn [__getitem__].
    rewrite bool_decide_eq_false_2 by (by intros (? & _)).
    unfold list_slice. cbn [default].
    rewrite bool_decide_eq_false_2 by done. cbn [slice_start slice_stop].
    assert (adjust_bound (Z.of_nat (length (items s))) 1 (Z.of_nat a) = Z.of_nat a) as ->.
    { unfold adjust_bound. repeat case_bool_decide; lia. }
    assert (adjust_bound (Z.of_nat (length (items s))) 1 (Z.of_nat b) = Z.of_nat b) as ->.
    { unfold adjust_bound. repeat case_bool_decide; lia. }
    assert (slice_length (Z.of_nat a) (Z.of_nat b) 1 = Z.of_nat (b - a)) as ->.
    { unfold slice_length. rewrite bool_decide_eq_false_2 by lia.
      case_bool_decide; [rewrite Z.div_1_r|]; lia. }
    rewrite Nat2Z.id, omap_lookup_range, Nat2Z.id by lia.
    do 2 f_equal. apply cls_NoDup.
    eapply sublist_NoDup; [apply Hwf|].
    etrans; [apply sublist_take|apply sublist_drop].
Qed.

End reading_properties.

Section lookup_properties.
Context {T : Type} `{Countable T}.
Implicit Types (s : OrderedSet T) (l : list T) (x : T) (k : nat).

Lemma index_single s x :
  index (SingleKey x) s =
  match map s !! x with
  | Some i => Return (Position i)
  | None => Raise KeyError
  end.
Proof. cbn. unfold map_get. by destruct (map s !! x). Qed.

Lemma index_batch_cons s (key : @lookup_key T) keys :
  index (BatchKey (key :: keys)) s =
  match index key s with
  | Raise e => Raise e
  | Return v =>
      match index (BatchKey keys) s with
      | Return (Positions vs) => Return (Positions (v :: vs))
      | Return (Position i) => Return (Position i)
      | Raise e => Raise e
      end
  end.
Proof.
  cbn. destruct (index key s) as [v|e]; [|done].
  match goal with |- context [match ?c with Return _ => _ | Raise _ => _ end] =>
    by destruct c end.
Qed.

(** X7. On a well-formed set [index] and integer reads are inverse to
    each other: [index] of the element at position [k] is [k], reading at
    the index [index] returns gives the element back, and [index] of what
    [s[i]] returns is [i] counted from the front.  [index] of an absent
    element raises [KeyError]. *)
Theorem index_getitem_roundtrip s :
  wf s →
  (∀ k x, items s !! k = Some x →
     index (SingleKey x) s = Return (Position (Z.of_nat k))) ∧
  (∀ x, x ∉ items s → index (SingleKey x) s = Raise KeyError) ∧
  (∀ i x, __getitem__ (IntKey i) s = Return (ItemValue x) →
     index (SingleKey x) s
     = Return (Position (if bool_decide (i < 0) then i + __len__ s else i))) ∧
  (∀ x i, index (SingleKey x) s = Return (Position i) →
     __getitem__ (IntKey i) s = Return (ItemValue x)).
Proof.
  intros Hwf. split_and!.
  - intros k x Hx. by rewrite index_single, (wf_position _ Hwf _ _ Hx).
  - intros x Hx. rewrite index_single.
    by rewrite (proj2 (wf_lookup_None s x Hwf) Hx).
  - intros i x Hget. cbn in Hget.
    destruct ((items_get i s).1) as [y|e] eqn:Hy; [|done]. injection Hget as ->.
    apply items_get_Return in Hy as (k & Hk & Hx).
    apply py_index_Some in Hk as (_ & _ & Hk). unfold __len__. rewrite <- Hk.
    by rewrite index_single, (wf_position _ Hwf _ _ Hx).
  - intros x i. rewrite index_single.
    destruct (map s !! x) as [j|] eqn:Hj; [|done]. intros [= <-].
    apply (wf_lookup_Some _ _ _ Hwf) in Hj as [Hj Hx].
    pose proof (lookup_lt_Some _ _ _ Hx) as Hlt. cbn.
    rewrite (items_get_at s j (Z.to_nat j) x); [done| |done].
    replace j with (Z.of_nat (Z.to_nat j)) at 1 by lia. by apply py_index_nat.
Qed.

(** X8. [index] of a batch returns the list of what [index] returns for
    each member, in order, batches nested in batches included.  On a
    well-formed set a flat batch of elements that are all present gives
    their positions, and a flat batch with an absent element raises
    [KeyError]. *)
Theorem index_batch s :
  (∀ keys vs, index (BatchKey keys) s = Return (Positions vs) ↔
              Forall2 (λ key v, index key s = Return v) keys vs) ∧
  (wf s → ∀ l, Forall (λ x, x ∈ items s) l →
     ∃ ps, index (BatchKey (SingleKey <$> l)) s = Return (Positions (Position <$> ps)) ∧
           Forall2 (λ x p, 0 ≤ p ∧ items s !! Z.to_nat p = Some x) l ps) ∧
  (wf s → ∀ l, Exists (λ x, x ∉ items s) l →
     index (BatchKey (SingleKey <$> l)) s = Raise KeyError).
Proof.
  assert (∀ keys, match index (BatchKey keys) s with
                  | Return (Position _) => False
                  | _ => True
                  end) as Hshape.
  { induction keys as [|key keys IH]; [done|]. rewrite index_batch_cons.
    destruct (index key s); [|done].
    by destruct (index (BatchKey keys) s) as [[|]|]. }
  split_and!.
  - induction keys as [|key keys IH]; intros vs.
    + split.
      * intros [= <-]. constructor.
      * by inversion 1.
    + rewrite index_batch_cons. split.
      * destruct (index key s) as [v|] eqn:Hv; [|done].
        destruct (index (BatchKey keys) s) as [[|vs']|] eqn:Hvs; [done| |done].
        intros [= <-]. constructor; [done|]. by apply IH.
      * inversion 1 as [|? v ? vs' Hv Hvs]; subst. rewrite Hv.
        apply IH in Hvs. by rewrite Hvs.
  - intros Hwf l Hall. induction Hall as [|x l Hx _ (ps & Hrun & Hps)].
    + exists []. split; [done|constructor].
    + apply list_elem_of_lookup in Hx as [k Hk].
      exists (Z.of_nat k :: ps). cbn [fmap list_fmap].
      change (list_fmap _ _ SingleKey l) with (SingleKey <$> l).
      rewrite index_batch_cons, index_single, (wf_position _ Hwf _ _ Hk), Hrun.
      split; [done|]. constructor; [|done]. rewrite Nat2Z.id. split; [lia|done].
  - intros Hwf l Hex. induction l as [|x l IH]; [by apply Exists_nil in Hex|].
    cbn [fmap list_fmap]. change (list_fmap _ _ SingleKey l) with (SingleKey <$> l).
    rewrite index_batch_cons, index_single.
    destruct (map s !! x) as [i|] eqn:Hi; [|done].
    apply Exists_cons in Hex as [Hex|Hex].
    + by apply (wf_lookup_None _ _ Hwf) in Hex; congruence.
    + by rewrite IH.
Qed.

End lookup_properties.

(** ** Further properties: containment tests, equality, set algebra with
    several arguments *)

Section containment_properties.
Context {T : Type} `{Countable T}.
Implicit Types (s : OrderedSet T) (l : list T) (x : T) (other : @iterable T).

Lemma forallb_elem_of (f : T → bool) l :
  forallb f l = true ↔ ∀ x, x ∈ l → f x = true.
Proof.
  rewrite forallb_forall. split; intros Hall x Hx; apply Hall; by apply list_elem_of_In.
Qed.

Lemma NoDup_incl_length l (k : list T) :
  NoDup l → (∀ x, x ∈ l → x ∈ k) → (length l ≤ length k)%nat.
Proof. intros Hnd Hincl. by apply submseteq_length, NoDup_submseteq. Qed.

Lemma all_items_ext (f g : T → result bool) l :
  (∀ x, f x = g x) → all_items f l = all_items g l.
Proof.
  intros Hfg. induction l as [|a l IH]; [done|]. cbn. by rewrite Hfg, IH.
Qed.

Lemma all_items_pure (f : T → bool) l :
  all_items (λ x, Return (f x)) l = Return (forallb f l).
Proof.
  induction l as [|a l IH]; [done|]. cbn. by destruct (f a).
Qed.

Lemma all_items_true (test : T → result bool) l :
  all_items test l = Return true ↔ ∀ x, x ∈ l → test x = Return true.
Proof.
  induction l as [|a l IH].
  - split; [|done]. by intros _ x ?%elem_of_nil.
  - cbn. destruct (test a) as [[|]|e] eqn:Ha.
    + rewrite IH. split.
      * intros Hl x [->|?]%elem_of_cons; auto.
      * intros Hl x Hx. apply Hl. by right.
    + split; [done|]. intros Hl.
      specialize (Hl a (list_elem_of_here _ _)). congruence.
    + split; [done|]. intros Hl.
      specialize (Hl a (list_elem_of_here _ _)). congruence.
Qed.

(** X9. [issubset] on a well-formed set.  When the argument is not a
    container, or is a container whose [in] is membership among what it
    yields (a list, tuple, set or ordered set), the answer is exactly
    whether every element of the set is among what the argument yields,
    and the early exit on sizes never changes it.  For any container, a
    sized argument shorter than the set is answered [False] without [in]
    being asked; otherwise the answer is [True] exactly when [in] says
    [True] for every element of the set, so that a container with a test
    of its own (a string, whose [in] looks for substrings) is answered by
    that test. *)
Theorem issubset_spec other (other_in : T → result bool) s :
  (wf s →
   (is_container other = true →
      ∀ x, other_in x = Return (bool_decide (x ∈ yields other))) →
   ∃ b, issubset other other_in s = Return b ∧
        (b = true ↔ ∀ x, x ∈ items s → x ∈ yields other)) ∧
  (is_sized other = true → __len__ s > Z.of_nat (length (yields other)) →
   issubset other other_in s = Return false) ∧
  (is_container other = true →
   ¬ (is_sized other = true ∧ __len__ s > Z.of_nat (length (yields other))) →
   issubset other other_in s = Return true
   ↔ ∀ x, x ∈ items s → other_in x = Return true).
Proof.
  split_and!.
  - intros Hwf Hin. unfold issubset.
    destruct (is_sized other && bool_decide (__len__ s > Z.of_nat (length (yields other))))
      eqn:Hfast.
    + exists false. split; [done|].
      apply andb_true_iff in Hfast as [_ Hlen%bool_decide_eq_true].
      split; [done|]. intros Hincl.
      pose proof (NoDup_incl_length _ _ (wf_nodup _ Hwf) Hincl).
      unfold __len__ in Hlen. lia.
    + destruct (is_container other); cbn [negb].
      * rewrite (all_items_ext _ (λ x, Return (bool_decide (x ∈ yields other))))
          by (by apply Hin).
        rewrite all_items_pure. eexists. split; [done|].
        rewrite forallb_elem_of. by setoid_rewrite bool_decide_eq_true.
      * rewrite all_items_pure. eexists. split; [done|].
        rewrite forallb_elem_of. setoid_rewrite bool_decide_eq_true.
        by setoid_rewrite elem_of_list_to_set.
  - intros Hsized Hlen. unfold issubset. rewrite Hsized. cbn [andb].
    by rewrite bool_decide_eq_true_2.
  - intros Hcont Hslow. unfold issubset. rewrite Hcont. cbn [negb].
    destruct (is_sized other && bool_decide (__len__ s > Z.of_nat (length (yields other))))
      eqn:Hfast.
    + apply andb_true_iff in Hfast as [Hsized Hlen%bool_decide_eq_true].
      by destruct Hslow.
    + apply all_items_true.
Qed.

(** X10. On a well-formed set [issuperset] answers true exactly when
    every object the argument yields is in the set and, if the argument is
    sized, it is not longer than the set.  For an argument without repeats
    this is plain containment; a sized argument that repeats elements can
    be answered false although all its elements are in the set. *)
Theorem issuperset_spec other s :
  wf s →
  (issuperset other s = true ↔
     (is_sized other = true → (length (yields other) ≤ length (items s))%nat) ∧
     ∀ x, x ∈ yields other → x ∈ items s) ∧
  (NoDup (yields other) →
     issuperset other s = true ↔ ∀ x, x ∈ yields other → x ∈ items s).
Proof.
  intros Hwf.
  assert (issuperset other s = true ↔
     (is_sized other = true → (length (yields other) ≤ length (items s))%nat) ∧
     ∀ x, x ∈ yields other → x ∈ items s) as Hiff.
  { unfold issuperset.
    destruct (is_sized other) eqn:Hsized; cbn [andb].
    - case_bool_decide as Hlen; unfold __len__ in Hlen.
      + split; [done|]. intros [Hle _]. specialize (Hle eq_refl). lia.
      + rewrite forallb_elem_of. setoid_rewrite (wf_contains s _ Hwf).
        split; [|tauto]. intros Hincl. split; [|done]. lia.
    - rewrite forallb_elem_of. setoid_rewrite (wf_contains s _ Hwf).
      split; [|tauto]. intros Hincl. by split. }
  split; [done|]. intros Hnd. rewrite Hiff. split; [tauto|].
  intros Hincl. split; [|done]. intros _. by apply NoDup_incl_length.
Qed.

(** X11. [__eq__] against another ordered set (a sequence) is sensitive
    to order: for well-formed sets it holds exactly when the two are the
    same set in the same order.  Against an unordered collection it
    ignores order and repeats and holds exactly when the elements are the
    same.  Against anything else it is false. *)
Theorem eq_spec s :
  (∀ s', wf s → wf s' → __eq__ s (as_operand s') = true ↔ s = s') ∧
  (∀ l, __eq__ s (Sequence l) = true ↔ items s = l) ∧
  (∀ l, __eq__ s (Collection l) = true ↔ ∀ x, x ∈ items s ↔ x ∈ l) ∧
  __eq__ s Opaque = false.
Proof.
  split_and!; [| | |done].
  - intros s' Hwf Hwf'. cbn. rewrite bool_decide_eq_true. split; [|by intros ->].
    intros Heq. rewrite (wf_eq _ Hwf), (wf_eq _ Hwf'). by rewrite Heq.
  - intros l. cbn. by rewrite bool_decide_eq_true.
  - intros l. cbn. rewrite bool_decide_eq_true. rewrite set_eq.
    by setoid_rewrite elem_of_list_to_set.
Qed.

End containment_properties.

Section nary_algebra.
Context {T : Type} `{Countable T}.
Implicit Types (s : OrderedSet T) (l : list T) (x : T) (sets : list (list T)).

Lemma elem_of_foldl_intersection (X : gset T) (Xs : list (gset T)) x :
  x ∈ foldl (∩) X Xs ↔ x ∈ X ∧ Forall (λ Y, x ∈ Y) Xs.
Proof.
  revert X. induction Xs as [|Y Xs IH]; intros X; cbn.
  - split; [by split|by intros [? _]].
  - rewrite IH, elem_of_intersection, Forall_cons. tauto.
Qed.

Lemma elem_of_foldl_union (X : gset T) (Xs : list (gset T)) x :
  x ∈ foldl (∪) X Xs ↔ x ∈ X ∨ Exists (λ Y, x ∈ Y) Xs.
Proof.
  revert X. induction Xs as [|Y Xs IH]; intros X; cbn.
  - rewrite Exists_nil. tauto.
  - rewrite IH, elem_of_union, Exists_cons. tauto.
Qed.

Lemma elem_of_items_to_remove (X : gset T) sets x :
  x ∈ foldl (λ acc other, acc ∪ list_to_set other) X sets
  ↔ x ∈ X ∨ Exists (λ l, x ∈ l) sets.
Proof.
  revert X. induction sets as [|l sets IH]; intros X; cbn.
  - rewrite Exists_nil. tauto.
  - rewrite IH, elem_of_union, elem_of_list_to_set, Exists_cons. tauto.
Qed.

Lemma elem_of_concat sets x : x ∈ concat sets ↔ ∃ l, l ∈ sets ∧ x ∈ l.
Proof.
  induction sets as [|k sets IH]; cbn.
  - split; [by intros ?%elem_of_nil|]. by intros (l & ?%elem_of_nil & _).
  - rewrite elem_of_app, IH. split.
    + intros [?|(l & ? & ?)]; [exists k|exists l]; split; try done; by constructor.
    + intros (l & [->|?]%elem_of_cons & ?); [by left|]. right. by exists l.
Qed.

Lemma not_Exists_Forall_iff {A} (P : A → Prop) (l : list A) :
  ¬ Exists P l ↔ Forall (λ a, ¬ P a) l.
Proof.
  induction l as [|a l IH].
  - split; [constructor|]. by intros _ ?%Exists_nil.
  - rewrite Exists_cons, Forall_cons, <- IH. tauto.
Qed.

Lemma filter_all (P : T → Prop) `{∀ x, Decision (P x)} l :
  (∀ x, P x) → filter P l = l.
Proof.
  intros HP. induction l as [|y l IH]; [done|].
  rewrite filter_cons_True by done. by rewrite IH.
Qed.

Lemma intersection_nary s sets :
  wf s →
  intersection s sets
  = rebuilt (filter (λ x, Forall (λ l, x ∈ l) sets) (items s)).
Proof.
  intros Hwf. unfold intersection. destruct sets as [|l sets]; cbn [fmap list_fmap].
  - rewrite cls_NoDup by apply Hwf. f_equal. symmetry. apply filter_all.
    intros x. constructor.
  - rewrite cls_NoDup by apply NoDup_filter, Hwf. f_equal.
    apply list_filter_iff. intros x.
    rewrite elem_of_foldl_intersection, elem_of_list_to_set, Forall_cons.
    change (list_fmap _ _ list_to_set sets) with (list_to_set (C:=gset T) <$> sets).
    rewrite Forall_fmap. apply and_iff_compat_l, Forall_iff.
    intros k. cbn. apply elem_of_list_to_set.
Qed.

Lemma difference_nary s sets :
  wf s →
  difference s sets
  = rebuilt (filter (λ x, Forall (λ l, x ∉ l) sets) (items s)).
Proof.
  intros Hwf. unfold difference. destruct sets as [|l sets]; cbn [fmap list_fmap].
  - rewrite cls_NoDup by apply Hwf. f_equal. symmetry. apply filter_all.
    intros x. constructor.
  - rewrite cls_NoDup by apply NoDup_filter, Hwf. f_equal.
    apply list_filter_iff. intros x.
    rewrite elem_of_foldl_union, elem_of_list_to_set, Forall_cons.
    change (list_fmap _ _ list_to_set sets) with (list_to_set (C:=gset T) <$> sets).
    rewrite Exists_fmap.
    split.
    + intros Hnot. split; [tauto|]. apply Forall_forall. intros k Hk Hx.
      apply Hnot. right. apply Exists_exists. exists k. split; [done|].
      cbn. by apply elem_of_list_to_set.
    + intros [Hl Hall] [Hx|Hex]; [done|].
      apply Exists_exists in Hex as (k & Hk & Hx). cbn in Hx.
      apply elem_of_list_to_set in Hx.
      rewrite Forall_forall in Hall. by apply (Hall k).
Qed.

(** X12. [union] of a well-formed set with any number of iterables is a
    well-formed set that starts with the set's own sequence, unchanged,
    followed by the elements of the arguments that the set lacks, each at
    its first occurrence across the arguments taken left to right. *)
Theorem union_spec s sets :
  wf s →
  wf (union s sets) ∧
  items (union s sets)
  = items s ++ filter (λ x, x ∉ items s) (first_occurrences (concat sets)) ∧
  (∀ x, x ∈ items (union s sets) ↔ x ∈ items s ∨ ∃ l, l ∈ sets ∧ x ∈ l).
Proof.
  intros Hwf.
  assert (items (union s sets)
          = items s ++ filter (λ x, x ∉ items s) (first_occurrences (concat sets)))
    as Hitems.
  { unfold union. rewrite cls_unfold, extend_app. cbn [items rebuilt].
    rewrite (extend_fresh [] (items s)) by apply Hwf. cbn [app].
    apply extend_first_occurrences. }
  split_and!; [apply cls_wf|done|].
  intros x. rewrite Hitems, elem_of_app, list_elem_of_filter, first_occurrences_elem.
  rewrite elem_of_concat.
  destruct (decide (x ∈ items s)); [tauto|]. split.
  - intros [?|[_ (l & ? & ?)]]; [tauto|]. right. by exists l.
  - intros [?|(l & ? & ?)]; [tauto|]. right. split; [done|]. by exists l.
Qed.

(** X13. [intersection] of a well-formed set with any number of
    iterables keeps, in the set's order, exactly the elements that occur
    in every argument; with no argument it is a copy of the set. *)
Theorem intersection_spec s sets :
  wf s →
  wf (intersection s sets) ∧
  items (intersection s sets)
  = filter (λ x, Forall (λ l, x ∈ l) sets) (items s) ∧
  (∀ x, x ∈ items (intersection s sets) ↔ x ∈ items s ∧ ∀ l, l ∈ sets → x ∈ l) ∧
  intersection s [] = s.
Proof.
  intros Hwf. rewrite !intersection_nary by done. cbn [items rebuilt]. split_and!.
  - apply rebuilt_wf, NoDup_filter, Hwf.
  - done.
  - intros x. rewrite list_elem_of_filter, Forall_forall. tauto.
  - rewrite filter_all by constructor. symmetry. by apply wf_eq.
Qed.

(** X14. [difference] of a well-formed set with any number of iterables
    keeps, in the set's order, exactly the elements that occur in none of
    the arguments, and [difference_update] with the same arguments leaves
    [self] in exactly that state without raising. *)
Theorem difference_spec s sets :
  wf s →
  wf (difference s sets) ∧
  items (difference s sets)
  = filter (λ x, Forall (λ l, x ∉ l) sets) (items s) ∧
  (∀ x, x ∈ items (difference s sets) ↔ x ∈ items s ∧ ∀ l, l ∈ sets → x ∉ l) ∧
  difference_update sets s = (Return (), difference s sets).
Proof.
  intros Hwf. rewrite !difference_nary by done. cbn [items rebuilt]. split_and!.
  - apply rebuilt_wf, NoDup_filter, Hwf.
  - done.
  - intros x. rewrite list_elem_of_filter, Forall_forall. tauto.
  - unfold difference_update, bind, gets, _update_items. cbn. unfold rebuilt.
    assert (filter (λ item, item ∉ foldl (λ (acc : gset T) other, acc ∪ list_to_set other) ∅ sets)
                   (items s)
            = filter (λ x, Forall (λ l, x ∉ l) sets) (items s)) as ->; [|done].
    apply list_filter_iff. intros x.
    rewrite elem_of_items_to_remove, <- not_Exists_Forall_iff.
    rewrite elem_of_empty. tauto.
Qed.

End nary_algebra.

(** ** Further properties: removal, replacement and how they compose *)

Section mutation_properties.
Context {T : Type} `{Countable T}.
Implicit Types (s : OrderedSet T) (l : list T) (x y value old : T) (k j : nat).

Lemma filter_ext_elem (P Q : T → Prop)
    `{∀ x, Decision (P x)} `{∀ x, Decision (Q x)} l :
  (∀ y, y ∈ l → P y ↔ Q y) → filter P l = filter Q l.
Proof.
  induction l as [|a l IH]; intros Hext; [done|].
  rewrite !filter_cons. rewrite IH by (intros y Hy; apply Hext; by right).
  destruct (decide (P a)) as [HP|HP], (decide (Q a)) as [HQ|HQ]; try done;
    exfalso; apply (Hext a) in HP || apply (Hext a) in HQ; try done; by left.
Qed.

Lemma filter_id (P : T → Prop) `{∀ x, Decision (P x)} l :
  (∀ y, y ∈ l → P y) → filter P l = l.
Proof.
  intros HP. induction l as [|a l IH]; [done|].
  rewrite filter_cons_True by (apply HP; by left).
  rewrite IH; [done|]. intros y Hy. apply HP. by right.
Qed.

(** A duplicate-free list around one of its positions. *)
Lemma NoDup_split_at l k x :
  NoDup l → l !! k = Some x →
  ∃ l1 l2, l = l1 ++ x :: l2 ∧ length l1 = k ∧ (x ∉ l1) ∧ (x ∉ l2) ∧
           delete k l = l1 ++ l2 ∧ ∀ v, <[k := v]> l = l1 ++ v :: l2.
Proof.
  intros Hnd Hk. pose proof (lookup_lt_Some _ _ _ Hk) as Hlt.
  exists (take k l), (drop (S k) l).
  pose proof (take_drop_middle _ _ _ Hk) as Hl.
  rewrite <- Hl in Hnd. apply NoDup_app in Hnd as (_ & Hdisj & Hnd).
  apply NoDup_cons in Hnd as [Hx _].
  split_and!; [done| |..].
  - rewrite length_take. lia.
  - intros Hin. apply (Hdisj _ Hin). by left.
  - done.
  - apply delete_take_drop.
  - intros v. by apply insert_take_drop.
Qed.

Lemma delete_filter l k x :
  NoDup l → l !! k = Some x → delete k l = filter (λ y, y ≠ x) l.
Proof.
  intros Hnd Hk.
  destruct (NoDup_split_at l k x Hnd Hk) as (l1 & l2 & -> & _ & H1 & H2 & -> & _).
  rewrite filter_app, filter_cons_False by (by intros ?).
  rewrite !filter_id; [done|..]; by intros y Hy ->.
Qed.

(** X15. On a well-formed set [discard] leaves exactly the other
    elements, in their order, and never raises; [remove] does the same
    when the element is present and raises [KeyError], changing nothing,
    when it is absent. *)
Theorem discard_remove_filter value s :
  wf s →
  discard value s = (Return (), rebuilt (filter (λ y, y ≠ value) (items s))) ∧
  (value ∈ items s → remove value s = discard value s) ∧
  (value ∉ items s → remove value s = (Raise KeyError, s)) ∧
  wf (discard value s).2 ∧ value ∉ items (discard value s).2.
Proof.
  intros Hwf.
  assert (discard value s = (Return (), rebuilt (filter (λ y, y ≠ value) (items s))))
    as Hdiscard.
  { destruct (discard_cases value s Hwf) as [[Hnotin ->]|(k & Hk & ->)].
    - rewrite filter_id by (by intros y Hy ->). f_equal. by apply wf_eq.
    - rewrite (delete_filter _ _ value); [done|apply Hwf|done]. }
  split_and!; [done| | |by apply discard_wf|].
  - intros Hin. rewrite remove_run.
    by rewrite (proj2 (wf_contains s value Hwf) Hin).
  - intros Hnotin. rewrite remove_run.
    destruct (__contains__ value s) eqn:Hc; [|done].
    by apply (wf_contains s value Hwf) in Hc.
  - rewrite Hdiscard. cbn. rewrite list_elem_of_filter. tauto.
Qed.

Lemma add_fresh x s :
  wf s → x ∉ items s →
  add x s = (Return (__len__ s), rebuilt (items s ++ [x])).
Proof.
  intros Hwf Hx. pose proof (add_extend x s Hwf) as Hext.
  rewrite add_unfold in *.
  rewrite (proj2 (wf_lookup_None s x Hwf) Hx) in *. cbn [snd] in Hext.
  rewrite Hext. unfold extend. cbn [foldl]. by rewrite decide_False.
Qed.

(** X16. Inserting a new element and then discarding (or removing) it
    gives back the well-formed set one started from. *)
Theorem add_discard_roundtrip x s :
  wf s → x ∉ items s →
  discard x (add x s).2 = (Return (), s) ∧ remove x (add x s).2 = (Return (), s).
Proof.
  intros Hwf Hx.
  assert (discard x (add x s).2 = (Return (), s)) as Hdiscard.
  { rewrite add_fresh by done. cbn [snd].
    assert (wf (rebuilt (items s ++ [x]))) as Hwf'.
    { apply rebuilt_wf, NoDup_app. split_and!; [apply Hwf| |apply NoDup_singleton].
      by intros y Hy ->%list_elem_of_singleton. }
    rewrite (discard_present x _ (length (items s))); [|done|].
    - cbn [items rebuilt].
      rewrite delete_middle, app_nil_r. f_equal. symmetry. by apply wf_eq.
    - cbn [items rebuilt]. by apply list_lookup_middle. }
  split; [done|]. rewrite remove_run.
  destruct (__contains__ x (add x s).2) eqn:Hc; [done|].
  rewrite add_fresh in Hc by done. cbn [snd] in Hc.
  unfold __contains__ in Hc. apply bool_decide_eq_false in Hc. exfalso. apply Hc.
  cbn. rewrite (enumerate_dict_lookup _ (length (items s))); [done| |].
  - apply NoDup_app. split_and!; [apply Hwf| |apply NoDup_singleton].
    by intros y Hy ->%list_elem_of_singleton.
  - by apply list_lookup_middle.
Qed.

(** X17. [pop] on a set without elements raises [KeyError] whatever the
    index; on a non-empty set an index out of range raises [IndexError];
    neither changes the set.  Otherwise it returns the element at the
    position the index denotes, read from the front or from the end, and
    leaves the other elements in their order; with the default index [-1]
    it takes the last element. *)
Theorem pop_spec s :
  (items s = [] → ∀ i, pop i s = (Raise KeyError, s)) ∧
  (items s ≠ [] → ∀ i, ¬ (- __len__ s ≤ i < __len__ s) →
     pop i s = (Raise IndexError, s)) ∧
  (∀ k x, items s !! k = Some x →
     pop (Z.of_nat k) s = (Return x, rebuilt (delete k (items s))) ∧
     pop (Z.of_nat k - __len__ s) s = (Return x, rebuilt (delete k (items s))) ∧
     (wf s → delete k (items s) = filter (λ y, y ≠ x) (items s))) ∧
  (∀ l x, items s = l ++ [x] → pop (-1) s = (Return x, rebuilt l)).
Proof.
  assert (∀ k x, items s !! k = Some x → ∀ i,
            py_index (length (items s)) i = Some k →
            pop i s = (Return x, rebuilt (delete k (items s)))) as Hpop.
  { intros k x Hx i Hi. rewrite pop_run, Hi, Hx.
    rewrite bool_decide_eq_false_2; [done|]. intros Hnil. by rewrite Hnil in Hx. }
  split_and!.
  - intros Hnil i. rewrite pop_run. by rewrite bool_decide_eq_true_2.
  - intros Hne i Hi. rewrite pop_run. rewrite bool_decide_eq_false_2 by done.
    by rewrite (proj2 (py_index_None _ _) Hi).
  - intros k x Hx. pose proof (lookup_lt_Some _ _ _ Hx) as Hlt. split_and!.
    + apply Hpop; [done|]. by apply py_index_nat.
    + apply Hpop; [done|]. by apply py_index_from_end.
    + intros Hwf. apply delete_filter; [apply Hwf|done].
  - intros l x Hl.
    assert (items s !! length l = Some x) as Hx.
    { rewrite Hl. by apply list_lookup_middle. }
    rewrite (Hpop (length l) x Hx).
    + rewrite Hl. by rewrite delete_middle, app_nil_r.
    + rewrite Hl, length_app. cbn [length].
      replace (-1) with (Z.of_nat (length l) - Z.of_nat (length l + 1)) by lia.
      apply py_index_from_end. lia.
Qed.

(** X18. Popping an element of a well-formed set and adding it again
    puts it at the end, not back where it was: the index [add] returns is
    the last position.  When the popped element was the last one, the set
    is back to what it was. *)
Theorem pop_then_add s k x :
  wf s → items s !! k = Some x →
  add x (pop (Z.of_nat k) s).2
  = (Return (__len__ s - 1), rebuilt (delete k (items s) ++ [x])) ∧
  (S k = length (items s) → add x (pop (-1) s).2 = (Return (Z.of_nat k), s)).
Proof.
  intros Hwf Hx. pose proof (lookup_lt_Some _ _ _ Hx) as Hlt.
  assert (pop (Z.of_nat k) s = (Return x, rebuilt (delete k (items s)))) as Hpop.
  { rewrite pop_run, py_index_nat, Hx by done.
    rewrite bool_decide_eq_false_2; [done|]. intros Hnil. by rewrite Hnil in Hx. }
  assert (add x (rebuilt (delete k (items s)))
          = (Return (__len__ s - 1), rebuilt (delete k (items s) ++ [x]))) as Hadd.
  { rewrite add_fresh.
    - unfold __len__. cbn [items rebuilt].
      rewrite length_delete by eauto. do 2 f_equal. lia.
    - apply rebuilt_wf, delete_NoDup, Hwf.
    - apply not_elem_of_delete; [apply Hwf|done]. }
  split; [by rewrite Hpop|]. intros Hlast.
  destruct (NoDup_split_at _ _ _ (wf_nodup _ Hwf) Hx)
    as (l1 & l2 & Hl & Hlen & _ & _ & Hdel & _).
  assert (l2 = []) as ->.
  { apply nil_length_inv. rewrite Hl, length_app in Hlast. cbn in Hlast. lia. }
  rewrite app_nil_r in Hdel.
  replace (pop (-1) s) with (pop (Z.of_nat k) s).
  - rewrite Hpop. cbn [snd]. rewrite Hadd, Hdel, <- Hl.
    unfold __len__. rewrite <- Hlast. f_equal; [f_equal; lia|].
    symmetry. by apply wf_eq.
  - rewrite !pop_run. replace (py_index (length (items s)) (-1)) with (Some k).
    + by rewrite py_index_nat.
    + symmetry. replace (-1) with (Z.of_nat k - Z.of_nat (length (items s))) by lia.
      by apply py_index_from_end.
Qed.

End mutation_properties.

Section renumbering_properties.
Context {T : Type} `{Countable T}.
Implicit Types (s : OrderedSet T) (l other : list T) (x y value old : T) (k j : nat).

(** X19. Deleting position [k] of a well-formed set renumbers what
    follows: afterwards [index] of an element that stood before [k] is
    unchanged, [index] of an element that stood after [k] is one less, and
    [index] of the deleted element raises [KeyError].  The position can be
    given from the end, and an index out of range raises [IndexError] and
    changes nothing. *)
Theorem delitem_renumbers s k x :
  wf s → items s !! k = Some x →
  (∀ j y, items s !! j = Some y →
     ((j < k)%nat →
        index (SingleKey y) (__delitem__ (Z.of_nat k) s).2
        = Return (Position (Z.of_nat j))) ∧
     ((k < j)%nat →
        index (SingleKey y) (__delitem__ (Z.of_nat k) s).2
        = Return (Position (Z.of_nat j - 1)))) ∧
  index (SingleKey x) (__delitem__ (Z.of_nat k) s).2 = Raise KeyError ∧
  __delitem__ (Z.of_nat k - __len__ s) s = __delitem__ (Z.of_nat k) s ∧
  (∀ i, ¬ (- __len__ s ≤ i < __len__ s) → __delitem__ i s = (Raise IndexError, s)).
Proof.
  intros Hwf Hx. pose proof (lookup_lt_Some _ _ _ Hx) as Hlt.
  pose proof (delete_NoDup _ k (wf_nodup _ Hwf)) as Hnd.
  rewrite !delitem_run, py_index_nat, py_index_from_end by done.
  cbn [snd]. split_and!; [| |done|].
  - intros j y Hy. rewrite index_single. cbn [map rebuilt]. split; intros Hjk.
    + rewrite (enumerate_dict_lookup _ j); [done..|].
      by rewrite list_lookup_delete_lt.
    + rewrite (enumerate_dict_lookup _ (j - 1)); [|done|].
      * do 2 f_equal. lia.
      * rewrite list_lookup_delete_ge by lia. rewrite <- Hy. f_equal. lia.
  - rewrite index_single. cbn [map rebuilt].
    rewrite enumerate_dict_notin; [done|].
    apply not_elem_of_delete; [apply Hwf|done].
  - intros i Hi. rewrite delitem_run. by rewrite (proj2 (py_index_None _ _) Hi).
Qed.

Lemma elem_of_insert_at l k old value y :
  NoDup l → l !! k = Some old →
  y ∈ <[k := value]> l ↔ y = value ∨ (y ∈ l ∧ y ≠ old).
Proof.
  intros Hnd Hk.
  destruct (NoDup_split_at l k old Hnd Hk) as (l1 & l2 & -> & _ & H1 & H2 & _ & ->).
  rewrite !elem_of_app, !elem_of_cons. split.
  - intros [?|[?|?]]; [right|by left|right]; (split; [tauto|by intros ->]).
  - intros [->|[[?|[?|?]] ?]]; tauto.
Qed.

Lemma filter_insert_at l k old value :
  NoDup l → l !! k = Some old →
  filter (λ y, y ≠ value) (<[k := value]> l)
  = filter (λ y, y ≠ value ∧ y ≠ old) l.
Proof.
  intros Hnd Hk.
  destruct (NoDup_split_at l k old Hnd Hk) as (l1 & l2 & -> & _ & H1 & H2 & _ & ->).
  rewrite !filter_app, !filter_cons.
  rewrite (decide_False (P:=value ≠ value)) by tauto.
  rewrite (decide_False (P:=old ≠ value ∧ old ≠ old)) by tauto.
  f_equal; apply filter_ext_elem; intros y Hy;
    (split; [|tauto]); (intros ?; split; [done|by intros ->]).
Qed.

(** X20. A successful [__setitem__] on a well-formed set that writes a
    value different from the element it finds at the target position
    drops that element and brings in the value: afterwards the set holds
    the value and every other old element except the replaced one; the
    elements other than the value keep their relative order; and the size
    is unchanged when the value is new and one less when it was moved. *)
Theorem setitem_replaces s (index : Z) value old :
  wf s → - __len__ s ≤ index < __len__ s →
  items s !! Z.to_nat (if bool_decide (index < 0) then index + __len__ s else index)
  = Some old →
  value ≠ old →
  (__setitem__ index value s).1 = Return () ∧
  (∀ y, y ∈ items (__setitem__ index value s).2
        ↔ y = value ∨ (y ∈ items s ∧ y ≠ old)) ∧
  filter (λ y, y ≠ value) (items (__setitem__ index value s).2)
  = filter (λ y, y ≠ value ∧ y ≠ old) (items s) ∧
  length (items (__setitem__ index value s).2)
  = (if decide (value ∈ items s) then length (items s) - 1 else length (items s))%nat.
Proof.
  intros Hwf Hin Hold Hne. pose proof (py_index_in_range _ _ Hin) as Hk.
  unfold __len__ in Hold.
  set (k := Z.to_nat (if bool_decide (index < 0)
                      then index + Z.of_nat (length (items s)) else index)) in *.
  pose proof (wf_nodup _ Hwf) as Hnd.
  destruct (setitem_cases index value s k Hwf Hk)
    as [[Hnotin ->]|[[Hsame _]|(j & Hjk & Hj & ->)]].
  - cbn [fst snd items rebuilt]. split_and!; [done| | |].
    + intros y. by apply elem_of_insert_at.
    + by apply filter_insert_at.
    + rewrite length_insert. by rewrite decide_False.
  - congruence.
  - cbn [fst snd items rebuilt].
    set (k' := if decide (j < k)%nat then (k - 1)%nat else k).
    assert (delete j (items s) !! k' = Some old) as Hk'.
    { unfold k'. case_decide.
      - rewrite list_lookup_delete_ge by lia. rewrite <- Hold. f_equal. lia.
      - rewrite list_lookup_delete_lt by lia. done. }
    pose proof (delete_NoDup _ j Hnd) as Hnd'.
    pose proof (delete_filter _ _ _ Hnd Hj) as Hdel.
    split_and!; [done| | |].
    + intros y. rewrite (elem_of_insert_at _ k' old) by done.
      rewrite Hdel, list_elem_of_filter.
      destruct (decide (y = value)); tauto.
    + rewrite (filter_insert_at _ k' old) by done.
      rewrite Hdel, list_filter_filter. apply list_filter_iff. tauto.
    + rewrite length_insert, length_delete by eauto.
      rewrite decide_True; [done|]. by eapply list_elem_of_lookup_2.
Qed.

Lemma set_of_hashables l : set_of (hashables l) = Return (list_to_set l).
Proof.
  unfold set_of, hashables.
  change (bool_decide (Unhashable ∈ Hashable <$> l)) with (fails (hashables l)).
  by rewrite hashables_succeed, items_before_failure_hashable.
Qed.

Lemma items_not_in_hashables l s :
  items_not_in (hashables l) s
  = Return (filter (λ item, __contains__ item s = false) l).
Proof.
  unfold items_not_in, hashables.
  change (bool_decide (Unhashable ∈ Hashable <$> l)) with (fails (hashables l)).
  by rewrite hashables_succeed, items_before_failure_hashable.
Qed.

(** On a list the general definition is the one over lists. *)
Lemma symmetric_difference_update_arg_list l s :
  symmetric_difference_update_arg (list_argument l) s
  = symmetric_difference_update l s.
Proof.
  unfold symmetric_difference_update_arg, symmetric_difference_update, bind, gets.
  cbn beta iota. cbn [supplies list_argument].
  rewrite items_not_in_hashables.
  change (later_pass (list_argument l)) with (hashables l).
  by rewrite set_of_hashables.
Qed.

(** On an iterator the second pass finds nothing to remove. *)
Lemma symmetric_difference_update_arg_iter l s :
  symmetric_difference_update_arg (iter l) s
  = (Return (),
     rebuilt (items s ++ filter (λ item, __contains__ item s = false) l)).
Proof.
  unfold symmetric_difference_update_arg, bind, gets.
  cbn beta iota. cbn [supplies iter].
  rewrite items_not_in_hashables.
  change (later_pass (iter l)) with (hashables (T:=T) []).
  rewrite set_of_hashables. unfold _update_items, bind, set_items, set_map.
  cbn. unfold rebuilt.
  by rewrite !(filter_id _ (items s)) by (intros y _; apply not_elem_of_empty).
Qed.

Lemma new_hashables l : new (Some (hashables l)) = Return (cls l).
Proof. unfold new. by rewrite init_run, cls_unfold. Qed.

(** On a list the general [symmetric_difference] is the one over lists. *)
Lemma symmetric_difference_arg_list s l :
  symmetric_difference_arg s (list_argument l) = Return (symmetric_difference s l).
Proof.
  unfold symmetric_difference_arg. cbn [supplies list_argument].
  rewrite set_of_hashables.
  change (later_pass (list_argument l)) with (hashables l).
  by rewrite new_hashables.
Qed.

(** On an iterator it is the difference alone. *)
Lemma symmetric_difference_arg_iter s l :
  wf s → symmetric_difference_arg s (iter l) = Return (difference s [l]).
Proof.
  intros Hwf. unfold symmetric_difference_arg. cbn [supplies iter].
  rewrite set_of_hashables.
  change (later_pass (iter l)) with (hashables (T:=T) []).
  rewrite new_hashables. f_equal.
  change (cls (filter (λ item, item ∉ (list_to_set l : gset T)) (items (cls (items s)))))
    with (difference (copy s) [l]).
  rewrite (copy_wf _ Hwf). unfold union.
  assert (items (difference (cls []) [items s]) = []) as -> by done.
  cbn [concat]. rewrite !app_nil_r.
  apply (copy_wf (difference s [l])). unfold difference. cbn. apply cls_wf.
Qed.

(** X21. [symmetric_difference_update] on a well-formed set, with an
    argument that yields hashable elements without repeats.  When the
    argument can be iterated again (a list, tuple, set or ordered set) the
    result is a well-formed set holding exactly the elements that are in
    one of the two but not in both: the kept elements of the set in their
    order, then the new elements in the argument's order; a second call
    with the same argument brings back the elements the set had before.
    When the argument is an iterator, its second pass is empty, so nothing
    is removed: the set keeps all its elements and the new elements are
    appended. *)
Theorem symmetric_difference_update_spec l s :
  wf s → NoDup l →
  (symmetric_difference_update_arg (list_argument l) s).1 = Return () ∧
  wf (symmetric_difference_update_arg (list_argument l) s).2 ∧
  items (symmetric_difference_update_arg (list_argument l) s).2
  = filter (λ x, x ∉ l) (items s) ++ filter (λ x, x ∉ items s) l ∧
  (∀ x, x ∈ items (symmetric_difference_update_arg (list_argument l) s).2
        ↔ (x ∈ items s ∧ x ∉ l) ∨ (x ∈ l ∧ x ∉ items s)) ∧
  (∀ x, x ∈ items (symmetric_difference_update_arg (list_argument l)
                     (symmetric_difference_update_arg (list_argument l) s).2).2
        ↔ x ∈ items s) ∧
  (symmetric_difference_update_arg (iter l) s).1 = Return () ∧
  wf (symmetric_difference_update_arg (iter l) s).2 ∧
  items (symmetric_difference_update_arg (iter l) s).2
  = items s ++ filter (λ x, x ∉ items s) l.
Proof.
  intros Hwf Hnd.
  assert (∀ s', wf s' →
            filter (λ item, __contains__ item s' = false) l
            = filter (λ x, x ∉ items s') l) as Hfresh.
  { intros s' Hwf'. apply list_filter_iff. intros x.
    rewrite <- (wf_contains _ _ Hwf'). by destruct (__contains__ x s'). }
  assert (∀ s', wf s' →
            items (symmetric_difference_update_arg (list_argument l) s').2
            = filter (λ x, x ∉ l) (items s') ++ filter (λ x, x ∉ items s') l)
    as Hitems.
  { intros s' Hwf'.
    rewrite symmetric_difference_update_arg_list, symmetric_difference_update_run.
    cbn [snd items rebuilt]. rewrite (Hfresh s' Hwf'). f_equal.
    apply list_filter_iff. intros x. by rewrite elem_of_list_to_set. }
  assert (∀ s', wf s' → ∀ x,
            x ∈ items (symmetric_difference_update_arg (list_argument l) s').2
            ↔ (x ∈ items s' ∧ x ∉ l) ∨ (x ∈ l ∧ x ∉ items s')) as Hmem.
  { intros s' Hwf' x. rewrite (Hitems s' Hwf'), elem_of_app, !list_elem_of_filter. tauto. }
  assert (wf (symmetric_difference_update_arg (list_argument l) s).2) as Hwf'.
  { rewrite symmetric_difference_update_arg_list.
    by apply symmetric_difference_update_wf. }
  split_and!.
  - by rewrite symmetric_difference_update_arg_list.
  - done.
  - by apply Hitems.
  - by apply Hmem.
  - intros x. rewrite (Hmem _ Hwf'), (Hmem s Hwf).
    destruct (decide (x ∈ items s)), (decide (x ∈ l)); tauto.
  - by rewrite symmetric_difference_update_arg_iter.
  - rewrite symmetric_difference_update_arg_iter. cbn [snd].
    rewrite (Hfresh s Hwf). apply rebuilt_wf, NoDup_app. split_and!.
    + apply Hwf.
    + by intros x Hx [Hx' _]%list_elem_of_filter.
    + by apply NoDup_filter.
  - rewrite symmetric_difference_update_arg_iter. cbn [snd items rebuilt].
    by rewrite (Hfresh s Hwf).
Qed.

(** X22. [clear] leaves the empty set, whatever state it starts from:
    no element is contained any more, [pop] raises [KeyError], and
    refilling with [update] gives what the constructor builds from the
    same iterable. *)
Theorem clear_spec s :
  clear s = (Return (), mkOrderedSet [] ∅) ∧
  (∀ x, __contains__ x (clear s).2 = false) ∧
  (∀ i, (pop i (clear s).2).1 = Raise KeyError) ∧
  (∀ l, (update [hashables l] (clear s).2).2 = cls l).
Proof.
  split_and!; [done|done|done|]. intros l. cbn [clear snd].
  destruct (update_hashables [l] (clear s).2) as (i & s' & Hrun & Hadds).
  cbn [fmap list_fmap] in Hrun. rewrite Hrun. cbn [snd].
  cbn [concat] in Hadds. rewrite app_nil_r in Hadds.
  apply adds_extend in Hadds; [|apply clear_wf]. by rewrite cls_unfold.
Qed.

End renumbering_properties.

(** ** The further properties at concrete sets *)

Lemma construction_first_occurrences_witness :
  NoDup [3; 1; 2] ∧ (cls [3; 1; 2] : OrderedSet Z) = rebuilt [3; 1; 2].
Proof.
  assert (NoDup [3; 1; 2]) as Hnd by compute_done.
  split; [done|].
  by apply (proj1 (proj2 (proj2 (proj2 (proj2
              (construction_first_occurrences [3; 1; 2])))))).
Defined.

Lemma update_returns_last_position_witness :
  wf (cls [1; 2] : OrderedSet Z) ∧ concat [[3]; [1]] = [3] ++ [1] ∧
  ∃ i s', update (hashables <$> [[3]; [1]]) (cls [1; 2] : OrderedSet Z) = (Return i, s') ∧
          wf s' ∧ 0 ≤ i ∧ items s' !! Z.to_nat i = Some 1 ∧ map s' !! 1 = Some i.
Proof.
  split; [apply cls_wf|]. split; [done|].
  apply (update_returns_last_position [[3]; [1]] [3] 1 (cls [1; 2]) (cls_wf _) eq_refl).
Defined.

Lemma getitem_int_witness :
  items (cls [5; 6; 7] : OrderedSet Z) !! 1%nat = Some 6 ∧
  __getitem__ (IntKey (-2)) (cls [5; 6; 7] : OrderedSet Z) = Return (ItemValue 6).
Proof.
  assert (items (cls [5; 6; 7] : OrderedSet Z) !! 1%nat = Some 6) as Hx by (by vm_compute).
  split; [done|].
  apply (proj2 (proj1 (getitem_int (cls [5; 6; 7])) 1%nat 6 Hx)).
Defined.

Lemma getitem_iterable_witness :
  Forall (λ i, - __len__ (cls [5; 6; 7] : OrderedSet Z) ≤ i
               < __len__ (cls [5; 6; 7] : OrderedSet Z)) [2; 0; -1] ∧
  ∃ xs, __getitem__ (IterableKey (IntSubscript <$> [2; 0; -1]))
          (cls [5; 6; 7] : OrderedSet Z) = Return (ListValue xs) ∧
        Forall2 (λ i x, __getitem__ (IntKey i) (cls [5; 6; 7] : OrderedSet Z)
                        = Return (ItemValue x)) [2; 0; -1] xs.
Proof.
  assert (__len__ (cls [5; 6; 7] : OrderedSet Z) = 3) as Hlen by (by vm_compute).
  assert (Forall (λ i, - __len__ (cls [5; 6; 7] : OrderedSet Z) ≤ i
                       < __len__ (cls [5; 6; 7] : OrderedSet Z)) [2; 0; -1]) as Hall.
  { rewrite Hlen. repeat constructor; lia. }
  split; [done|]. by apply (proj1 (getitem_iterable (cls [5; 6; 7]) [2; 0; -1])).
Defined.

Lemma getitem_slice_witness :
  wf (cls [5; 6; 7; 8] : OrderedSet Z) ∧
  __getitem__ (SliceKey (Some 1) (Some 3) None) (cls [5; 6; 7; 8] : OrderedSet Z)
  = Return (SetValue (rebuilt (take 2 (drop 1 (items (cls [5; 6; 7; 8])))))).
Proof.
  split; [apply cls_wf|].
  apply (proj2 (proj2 (getitem_slice (cls [5; 6; 7; 8]))) (cls_wf _) 1%nat 3%nat).
  split; [lia|]. vm_compute. lia.
Defined.

Lemma index_getitem_roundtrip_witness :
  wf (cls [5; 6; 7] : OrderedSet Z) ∧
  index (SingleKey 6) (cls [5; 6; 7] : OrderedSet Z) = Return (Position 1).
Proof.
  split; [apply cls_wf|].
  apply (proj1 (index_getitem_roundtrip (cls [5; 6; 7]) (cls_wf _)) 1%nat 6).
  by vm_compute.
Defined.

Lemma index_batch_witness :
  wf (cls [5; 6; 7] : OrderedSet Z) ∧
  Exists (λ x, x ∉ items (cls [5; 6; 7] : OrderedSet Z)) [6; 9] ∧
  index (BatchKey (SingleKey <$> [6; 9])) (cls [5; 6; 7] : OrderedSet Z) = Raise KeyError.
Proof.
  assert (Exists (λ x, x ∉ items (cls [5; 6; 7] : OrderedSet Z)) [6; 9]) as Hex.
  { apply Exists_cons_tl, Exists_cons_hd.
    compute_done. }
  split; [apply cls_wf|]. split; [done|].
  by apply (proj2 (proj2 (index_batch (cls [5; 6; 7]))) (cls_wf _)).
Defined.

Lemma issubset_spec_witness :
  wf (cls [1; 2] : OrderedSet Z) ∧
  ∃ b, issubset (mkIterable [2; 1; 1] true true)
         (λ x, Return (bool_decide (x ∈ [2; 1; 1]))) (cls [1; 2] : OrderedSet Z)
       = Return b ∧
       (b = true ↔ ∀ x, x ∈ items (cls [1; 2] : OrderedSet Z) → x ∈ [2; 1; 1]).
Proof.
  split; [apply cls_wf|].
  apply (proj1 (issubset_spec (mkIterable [2; 1; 1] true true)
                  (λ x, Return (bool_decide (x ∈ [2; 1; 1]))) (cls [1; 2]))
               (cls_wf _)).
  intros _ x. reflexivity.
Defined.

Lemma issuperset_spec_witness :
  wf (cls [1; 2] : OrderedSet Z) ∧ NoDup [2; 1] ∧
  (issuperset (mkIterable [2; 1] true true) (cls [1; 2] : OrderedSet Z) = true ↔
   ∀ x, x ∈ [2; 1] → x ∈ items (cls [1; 2] : OrderedSet Z)).
Proof.
  assert (NoDup [2; 1]) as Hnd by compute_done.
  split; [apply cls_wf|]. split; [done|].
  by apply (proj2 (issuperset_spec (mkIterable [2; 1] true true) (cls [1; 2]) (cls_wf _))).
Defined.

Lemma eq_spec_witness :
  wf (cls [1; 2] : OrderedSet Z) ∧ wf (cls [2; 1] : OrderedSet Z) ∧
  (__eq__ (cls [1; 2] : OrderedSet Z) (as_operand (cls [2; 1])) = true ↔
   (cls [1; 2] : OrderedSet Z) = cls [2; 1]).
Proof.
  split; [apply cls_wf|]. split; [apply cls_wf|].
  apply (proj1 (eq_spec (cls [1; 2])) (cls [2; 1]) (cls_wf _) (cls_wf _)).
Defined.

Lemma union_spec_witness :
  wf (cls [5; 3] : OrderedSet Z) ∧ wf (union (cls [5; 3] : OrderedSet Z) [[3; 1]; [4; 1]]).
Proof.
  split; [apply cls_wf|].
  apply (proj1 (union_spec (cls [5; 3]) [[3; 1]; [4; 1]] (cls_wf _))).
Defined.

Lemma intersection_spec_witness :
  wf (cls [5; 3; 1] : OrderedSet Z) ∧
  intersection (cls [5; 3; 1] : OrderedSet Z) [] = cls [5; 3; 1].
Proof.
  split; [apply cls_wf|].
  apply (proj2 (proj2 (proj2 (intersection_spec (cls [5; 3; 1]) [] (cls_wf _))))).
Defined.

Lemma difference_spec_witness :
  wf (cls [5; 3; 1] : OrderedSet Z) ∧
  difference_update [[3]; [1; 9]] (cls [5; 3; 1] : OrderedSet Z)
  = (Return (), difference (cls [5; 3; 1]) [[3]; [1; 9]]).
Proof.
  split; [apply cls_wf|].
  apply (proj2 (proj2 (proj2 (difference_spec (cls [5; 3; 1]) [[3]; [1; 9]] (cls_wf _))))).
Defined.

Lemma discard_remove_filter_witness :
  wf (cls [5; 3; 1] : OrderedSet Z) ∧
  discard 3 (cls [5; 3; 1] : OrderedSet Z)
  = (Return (), rebuilt (filter (λ y, y ≠ 3) (items (cls [5; 3; 1])))).
Proof.
  split; [apply cls_wf|].
  apply (proj1 (discard_remove_filter 3 (cls [5; 3; 1]) (cls_wf _))).
Defined.

Lemma add_discard_roundtrip_witness :
  wf (cls [5; 3] : OrderedSet Z) ∧ (9 ∉ items (cls [5; 3] : OrderedSet Z)) ∧
  discard 9 (add 9 (cls [5; 3] : OrderedSet Z)).2 = (Return (), cls [5; 3]).
Proof.
  assert (9 ∉ items (cls [5; 3] : OrderedSet Z)) as Hx by compute_done.
  split; [apply cls_wf|]. split; [done|].
  apply (proj1 (add_discard_roundtrip 9 (cls [5; 3]) (cls_wf _) Hx)).
Defined.

Lemma pop_spec_witness :
  items (cls [] : OrderedSet Z) = [] ∧
  pop 4 (cls [] : OrderedSet Z) = (Raise KeyError, cls []).
Proof.
  split; [by vm_compute|].
  apply (proj1 (pop_spec (cls [])) eq_refl 4).
Defined.

Lemma pop_then_add_witness :
  wf (cls [5; 3; 1] : OrderedSet Z) ∧
  items (cls [5; 3; 1] : OrderedSet Z) !! 0%nat = Some 5 ∧
  add 5 (pop 0 (cls [5; 3; 1] : OrderedSet Z)).2
  = (Return (__len__ (cls [5; 3; 1] : OrderedSet Z) - 1),
     rebuilt (delete 0%nat (items (cls [5; 3; 1] : OrderedSet Z)) ++ [5])).
Proof.
  assert (items (cls [5; 3; 1] : OrderedSet Z) !! 0%nat = Some 5) as Hx by (by vm_compute).
  split; [apply cls_wf|]. split; [done|].
  apply (proj1 (pop_then_add (cls [5; 3; 1]) 0%nat 5 (cls_wf _) Hx)).
Defined.

Lemma delitem_renumbers_witness :
  wf (cls [5; 3; 1] : OrderedSet Z) ∧
  items (cls [5; 3; 1] : OrderedSet Z) !! 1%nat = Some 3 ∧
  index (SingleKey 3) (__delitem__ 1 (cls [5; 3; 1] : OrderedSet Z)).2 = Raise KeyError.
Proof.
  assert (items (cls [5; 3; 1] : OrderedSet Z) !! 1%nat = Some 3) as Hx by (by vm_compute).
  split; [apply cls_wf|]. split; [done|].
  apply (proj1 (proj2 (delitem_renumbers (cls [5; 3; 1]) 1%nat 3 (cls_wf _) Hx))).
Defined.

Lemma setitem_replaces_witness :
  wf (cls [5; 6; 7] : OrderedSet Z) ∧
  (__setitem__ (-1) 5 (cls [5; 6; 7] : OrderedSet Z)).1 = Return ().
Proof.
  split; [apply cls_wf|].
  assert (__len__ (cls [5; 6; 7] : OrderedSet Z) = 3) as Hlen by (by vm_compute).
  assert (- __len__ (cls [5; 6; 7] : OrderedSet Z) ≤ -1
          < __len__ (cls [5; 6; 7] : OrderedSet Z)) as Hin by (rewrite Hlen; lia).
  assert (7 ≠ 5 ∧ 5 ≠ 7) as [_ Hne] by (split; discriminate).
  apply (proj1 (setitem_replaces (cls [5; 6; 7]) (-1) 5 7 (cls_wf _) Hin eq_refl Hne)).
Defined.

Lemma symmetric_difference_update_spec_witness :
  wf (cls [1; 2] : OrderedSet Z) ∧ NoDup [2; 3] ∧
  items (symmetric_difference_update_arg (list_argument [2; 3])
           (cls [1; 2] : OrderedSet Z)).2
  = filter (λ x, x ∉ [2; 3]) (items (cls [1; 2] : OrderedSet Z))
    ++ filter (λ x, x ∉ items (cls [1; 2] : OrderedSet Z)) [2; 3].
Proof.
  assert (NoDup [2; 3]) as Hnd by compute_done.
  split; [apply cls_wf|]. split; [done|].
  apply (proj1 (proj2 (proj2
           (symmetric_difference_update_spec [2; 3] (cls [1; 2]) (cls_wf _) Hnd)))).
Defined.
